(** * Conway's Game of Life on a torus

    A shallow embedding of [GOLcpp.cpp]: the two cell buffers that [main]
    owns, the wraparound neighbour count, the generation update, and the
    random seeding of the first generation.  The rendering calls are kept as
    a log of [DrawCell] events, the only thing the engine ever tells the
    renderer. *)

From stdpp Require Import list list_numbers.

Local Open Scope Z_scope.

(** ** Machine integers

    The program mixes [int], [unsigned int] and [unsigned char].  Values are
    mathematical integers here and every conversion the C++ text performs is
    written out. *)

Module Machine.

(** Conversion to [unsigned int] (32 bits). *)
Definition to_uint (z : Z) : Z := z mod 2 ^ 32.

(** Conversion of a 32-bit pattern to [int] (two's complement). *)
Definition to_int (z : Z) : Z :=
  let r := z mod 2 ^ 32 in if r <? 2 ^ 31 then r else r - 2 ^ 32.

(** Conversion to [unsigned char]. *)
Definition to_uchar (z : Z) : Z := z mod 256.

Definition INT_MAX : Z := 2 ^ 31 - 1.

End Machine.

Import Machine.

(** ** Cells and arrays

    A buffer is [unsigned char [gridWidth][gridHeight]]: a list of columns,
    first index [x], second index [y].  An access outside either extent is
    undefined behaviour in the program; the embedding returns [None]. *)

Definition ALIVE : Z := 1.
Definition DEAD : Z := 0.

Abbreviation Grid := (list (list Z)).

(** [g[x][y]] as an rvalue. *)
Definition index (g : Grid) (x y : Z) : option Z :=
  if (0 <=? x) && (0 <=? y) then
    col ← g !! Z.to_nat x; col !! Z.to_nat y
  else None.

(** [g[x][y] = v]. *)
Definition assign (g : Grid) (x y : Z) (v : Z) : option Grid :=
  if (0 <=? x) && (0 <=? y) then
    col ← g !! Z.to_nat x;
    if decide (Z.to_nat y < length col)%nat then
      Some (<[Z.to_nat x := <[Z.to_nat y := to_uchar v]> col]> g)
    else None
  else None.

(** The array with [f x y] at position [(x, y)], extents [w] by [h]. *)
Definition tabulate (w h : Z) (f : Z → Z → Z) : Grid :=
  (λ x, f x <$> seqZ 0 h) <$> seqZ 0 w.

(** ** Program state

    [main] declares two arrays, [grid] and [gridCopy], and hands references
    to them to the functions below.  A reference is the name of the array it
    is bound to, so that a function called with both references bound to the
    same array would see its own writes. *)

Inductive buf : Set := grid | gridCopy.

Global Instance buf_eq_dec : EqDecision buf.
Proof. solve_decision. Defined.

Record State : Type := mkState {
  st_grid : Grid;
  st_gridCopy : Grid;
  (** every [DrawCell x y colour] call so far, oldest first *)
  st_surface : list (Z * Z * Z);
  (** the C library's generator: the seed given to [srand] and the number
      of [rand] calls since *)
  st_seed : Z;
  st_rand_calls : nat
}.

Definition deref (b : buf) (s : State) : Grid :=
  match b with grid => st_grid s | gridCopy => st_gridCopy s end.

Definition update (b : buf) (a : Grid) (s : State) : State :=
  match b with
  | grid => mkState a (st_gridCopy s) (st_surface s) (st_seed s) (st_rand_calls s)
  | gridCopy => mkState (st_grid s) a (st_surface s) (st_seed s) (st_rand_calls s)
  end.

(** ** Computations: state passing, [None] for undefined behaviour *)

Definition M (A : Type) : Type := State → option (A * State).

Global Instance M_ret : MRet M := λ A a s, Some (a, s).
Global Instance M_bind : MBind M := λ A B f m s,
  match m s with
  | Some (a, s') => f a s'
  | None => None
  end.

Global Instance M_fmap : FMap M := λ A B f m s,
  match m s with
  | Some (a, s') => Some (f a, s')
  | None => None
  end.

Definition run {A} (m : M A) (s : State) : option (A * State) := m s.

(** Reading [g[x][y]] through a reference. *)
Definition load (g : buf) (x y : Z) : M Z := λ s,
  v ← index (deref g s) x y; Some (v, s).

(** Writing [g[x][y] = v] through a reference. *)
Definition store (g : buf) (x y : Z) (v : Z) : M unit := λ s,
  a ← assign (deref g s) x y v; Some (tt, update g a s).

(** Calling a function that only reads the array behind a reference. *)
Definition with_array {A} (g : buf) (f : Grid → option A) : M A := λ s,
  r ← f (deref g s); Some (r, s).

(** [memcpy(dst, src, sizeof(dst))] on two arrays of the same type: the
    whole of [src] is copied over [dst]. *)
Definition memcpy (dst src : buf) : M unit := λ s,
  Some (tt, update dst (deref src s) s).

(** [for (int i = 0; i < n; i++) body(i)]: the counter takes the values
    [0], ..., [n - 1] in turn (the test compares it as [unsigned int], which
    changes nothing while [n] fits an [int]). *)
Fixpoint for_each (range : list Z) (body : Z → M unit) : M unit :=
  match range with
  | [] => mret tt
  | i :: rest => body i ;; for_each rest body
  end.

Definition for_upto (n : Z) (body : Z → M unit) : M unit :=
  for_each (seqZ 0 n) body.

(** ** The program *)

Definition white : Z := 255.
Definition black : Z := 0.

(** [DrawCell] paints a square of the window surface and touches neither
    array; the call is recorded with its arguments, converted to
    [unsigned int] as the parameters are. *)
Definition paint (x y colour : Z) (s : State) : State :=
  mkState (st_grid s) (st_gridCopy s)
    (st_surface s ++ [(to_uint x, to_uint y, to_uint colour)])
    (st_seed s) (st_rand_calls s).

Definition DrawCell (x y colour : Z) : M unit := λ s, Some (tt, paint x y colour s).

(** Reading a list of positions in order and counting the cells equal to 1,
    each step being [count += g[i][j] == 1 ? 1 : 0]. *)
Fixpoint count_alive (g : Grid) (positions : list (Z * Z)) (count : Z) : option Z :=
  match positions with
  | [] => Some count
  | (i, j) :: rest =>
      c ← index g i j; count_alive g rest (count + (if c =? 1 then 1 else 0))
  end.

(** A sequence of writes [gCopy[x][y] = v], in order. *)
Fixpoint store_all (gCopy : buf) (writes : list (Z * Z * Z)) : M unit :=
  match writes with
  | [] => mret tt
  | (x, y, v) :: rest => store gCopy x y v ;; store_all gCopy rest
  end.

(** The state after one more [rand()] call. *)
Definition tick (s : State) : State :=
  mkState (st_grid s) (st_gridCopy s) (st_surface s) (st_seed s)
    (S (st_rand_calls s)).

Section Program.

(** Array extents; 200 by 200 in the repository. *)
Variable gridWidth gridHeight : Z.

(** The percentage of cells that start alive, an [unsigned int]; 10 in the
    repository.  The variable holds [to_uint percentageInit]: whatever
    number it is initialised with is converted on the way in. *)
Variable percentageInit : Z.

(** The C library: [libc_rand seed k] is the value of the [k]-th call of
    [rand()] after [srand(seed)], and [wall_clock] what [time(NULL)]
    returns. *)
Variable libc_rand : Z → nat → Z.
Variable wall_clock : Z.

Definition srand (seed : Z) : M unit := λ s,
  Some (tt, mkState (st_grid s) (st_gridCopy s) (st_surface s) seed 0%nat).

Definition rand : M Z := λ s,
  Some (libc_rand (st_seed s) (st_rand_calls s), tick s).

(** The body of the two loops of [InitGrid], lines 60-66.  [rand()] is
    converted to [unsigned int] by the [%], and the comparison with
    [percentageInit] is unsigned. *)
Definition init_cell (g : buf) (i j : Z) : M unit :=
  r ← rand;
  store g i j
    (if to_uint r mod 100 <? to_uint percentageInit then 1 else 0) ;;
  c ← load g i j;
  if c =? 1 then DrawCell i j white else DrawCell i j black.

(** [InitGrid], lines 55-69. *)
Definition InitGrid (g : buf) : M unit :=
  let seed := to_uint wall_clock in
  srand seed ;;
  for_upto gridWidth (λ i, for_upto gridHeight (λ j, init_cell g i j)).

(** [LiveNeighbourCount], lines 79-101.  [x == gridWidth - 1] compares as
    [unsigned int]; the conditional [isLeftEdge ? gridWidth - 1 : x - 1] has
    type [unsigned int] and is converted back to [int] by the
    initialisation of [xL]. *)
Definition isLeftEdge (x : Z) : bool := x =? 0.
Definition isRightEdge (x : Z) : bool := to_uint x =? to_uint (gridWidth - 1).
Definition isTopEdge (y : Z) : bool := y =? 0.
Definition isBottomEdge (y : Z) : bool := to_uint y =? to_uint (gridHeight - 1).

Definition xL (x : Z) : Z :=
  to_int (if isLeftEdge x then to_uint (gridWidth - 1) else to_uint (x - 1)).
Definition xR (x : Z) : Z := if isRightEdge x then 0 else x + 1.
Definition yT (y : Z) : Z :=
  to_int (if isTopEdge y then to_uint (gridHeight - 1) else to_uint (y - 1)).
Definition yB (y : Z) : Z := if isBottomEdge y then 0 else y + 1.

(** The eight positions read, in the order of lines 91-98. *)
Definition neighbours (x y : Z) : list (Z * Z) :=
  [ (xL x, yT y); (x, yT y); (xR x, yT y);
    (xL x, y);               (xR x, y);
    (xL x, yB y); (x, yB y); (xR x, yB y) ].

Definition LiveNeighbourCount (x y : Z) (g : Grid) : option Z :=
  let count := 0 in
  c ← index g (xL x) (yT y); let count := count + (if c =? 1 then 1 else 0) in
  c ← index g x (yT y);      let count := count + (if c =? 1 then 1 else 0) in
  c ← index g (xR x) (yT y); let count := count + (if c =? 1 then 1 else 0) in
  c ← index g (xL x) y;      let count := count + (if c =? 1 then 1 else 0) in
  c ← index g (xR x) y;      let count := count + (if c =? 1 then 1 else 0) in
  c ← index g (xL x) (yB y); let count := count + (if c =? 1 then 1 else 0) in
  c ← index g x (yB y);      let count := count + (if c =? 1 then 1 else 0) in
  c ← index g (xR x) (yB y); let count := count + (if c =? 1 then 1 else 0) in
  Some count.

(** The body of the two loops of [CalculateNextGeneration], lines 118-138. *)
Definition update_cell (g gCopy : buf) (x y : Z) : M unit :=
  neighbourCount ← to_uint <$> with_array g (LiveNeighbourCount x y);
  c ← load g x y;
  if c =? 1 then
    if negb (neighbourCount =? 2) && negb (neighbourCount =? 3) then
      store gCopy x y 0 ;; DrawCell x y black
    else
      store gCopy x y 1 ;; DrawCell x y white
  else
    if neighbourCount =? 3 then
      store gCopy x y 1 ;; DrawCell x y white
    else
      store gCopy x y 0 ;; DrawCell x y black.

(** The two loops, lines 116-140: everything before the [memcpy]. *)
Definition fill_next (g gCopy : buf) : M unit :=
  for_upto gridWidth (λ x, for_upto gridHeight (λ y, update_cell g gCopy x y)).

(** [CalculateNextGeneration], lines 115-142. *)
Definition CalculateNextGeneration (g gCopy : buf) : M unit :=
  fill_next g gCopy ;; memcpy g gCopy.

(** The run loop of [main] for [n] frames: one generation per frame, always
    called with [grid] and [gridCopy]. *)
Fixpoint frames (n : nat) : M unit :=
  match n with
  | O => mret tt
  | S n' => CalculateNextGeneration grid gridCopy ;; frames n'
  end.

End Program.

(** [g] has the type [unsigned char [w][h]]. *)
Definition dims (w h : Z) (g : Grid) : Prop :=
  length g = Z.to_nat w ∧ Forall (λ col, length col = Z.to_nat h) g.

(** Every cell of [g] is 0 or 1. *)
Definition binary (g : Grid) : Prop :=
  Forall (Forall (λ c, c = DEAD ∨ c = ALIVE)) g.

(** ** The automaton as the specification words it

    Section 4.2: the adjacent index on an axis of extent [N] is
    [(coord - 1 + N) mod N] on the low side and [(coord + 1) mod N] on the
    high side; [n] is the number of ALIVE cells among the eight adjacent
    positions of the current buffer; the next state is given by the
    five-row table. *)

Module Spec.

Definition low (N coord : Z) : Z := (coord - 1 + N) mod N.
Definition high (N coord : Z) : Z := (coord + 1) mod N.

Definition adjacent (W H x y : Z) : list (Z * Z) :=
  [ (low W x, low H y); (x, low H y); (high W x, low H y);
    (low W x, y);                     (high W x, y);
    (low W x, high H y); (x, high H y); (high W x, high H y) ].

Definition alive_at (g : Grid) (p : Z * Z) : Z :=
  if decide (index g p.1 p.2 = Some ALIVE) then 1 else 0.

Definition live_neighbours (W H : Z) (g : Grid) (x y : Z) : Z :=
  foldr (λ p n, alive_at g p + n) 0 (adjacent W H x y).

(** One row of the table per conjunct. *)
Definition rule_table (state n next : Z) : Prop :=
  (state = ALIVE → n < 2 → next = DEAD) ∧
  (state = ALIVE → n = 2 ∨ n = 3 → next = ALIVE) ∧
  (state = ALIVE → n > 3 → next = DEAD) ∧
  (state = DEAD → n = 3 → next = ALIVE) ∧
  (state = DEAD → n ≠ 3 → next = DEAD).

End Spec.

(** ** What the update writes, as a function of the buffer it reads

    These follow the text of [update_cell]: the value stored for a cell that
    holds [c] and has [neighbourCount] live neighbours, and the colour
    drawn with it. *)

Definition next_cell (c neighbourCount : Z) : Z :=
  if c =? 1 then
    if negb (neighbourCount =? 2) && negb (neighbourCount =? 3) then 0 else 1
  else
    if neighbourCount =? 3 then 1 else 0.

Definition colour_of (v : Z) : Z := if v =? 1 then white else black.

Definition next_at (W H : Z) (g : Grid) (x y : Z) : Z :=
  next_cell (default 0 (index g x y))
    (to_uint (default 0 (LiveNeighbourCount W H x y g))).

(** The array a generation computes from [g]. *)
Definition next_generation (W H : Z) (g : Grid) : Grid :=
  tabulate W H (next_at W H g).

(** The [DrawCell] calls of one generation, in call order. *)
Definition rendering (W H : Z) (g : Grid) : list (Z * Z * Z) :=
  x ← seqZ 0 W;
  (λ y, (to_uint x, to_uint y, to_uint (colour_of (next_at W H g x y))))
    <$> seqZ 0 H.

(** What [InitGrid] writes for a cell whose [rand()] call returned [r]. *)
Definition init_value (P r : Z) : Z :=
  if to_uint r mod 100 <? to_uint P then 1 else 0.

(** The array [InitGrid] leaves behind: the cell [(i, j)] is decided by the
    [(i * H + j)]-th value of the generator. *)
Definition initial_generation (W H P : Z) (libc_rand : Z → nat → Z) (seed : Z)
    : Grid :=
  tabulate W H (λ i j, init_value P (libc_rand seed (Z.to_nat (i * H + j)))).

(** Initialisation yields no usable array for the configuration
    [(W, H, P)]: whenever it returns, the array it was given is not a
    [W] by [H] array of two-valued cells. *)
Definition init_rejected (W H P : Z) : Prop :=
  ∀ libc_rand wall_clock g s s',
    dims W H (deref g s) →
    run (InitGrid W H P libc_rand wall_clock g) s = Some (tt, s') →
    ¬ (dims W H (deref g s') ∧ binary (deref g s')).

(** ** Test patterns

    [near N c k]: on an axis of extent [N], [k] is [c] or adjacent to it. *)
Definition near (N c k : Z) : bool :=
  (k =? Spec.low N c) || (k =? c) || (k =? Spec.high N c).

(** Three cells in a row along [x], centred at [(cx, cy)]. *)
Definition blinker_h (W H cx cy : Z) : Grid :=
  tabulate W H (λ x y, if near W cx x && (y =? cy) then ALIVE else DEAD).

(** Three cells in a row along [y], centred at [(cx, cy)]. *)
Definition blinker_v (W H cx cy : Z) : Grid :=
  tabulate W H (λ x y, if (x =? cx) && near H cy y then ALIVE else DEAD).

Definition all_dead (W H : Z) : Grid := tabulate W H (λ _ _, DEAD).
Definition all_alive (W H : Z) : Grid := tabulate W H (λ _ _, ALIVE).

(** ** The configuration of the repository, lines 16-28 *)

Module Repository.

Definition cellSize : Z := 4.
Definition gridWidth : Z := 200.
Definition gridHeight : Z := 200.
Definition percentageInit : Z := 10.

End Repository.

(** ** Sample states

    [main] never initialises [gridCopy]; [junk] stands for whatever it holds
    before the first generation. *)
Definition junk (W H : Z) : Grid := tabulate W H (λ _ _, 77).

Definition lone_cell (W H cx cy : Z) : Grid :=
  tabulate W H (λ x y, if (x =? cx) && (y =? cy) then ALIVE else DEAD).

Definition blinker_state : State :=
  mkState (blinker_h 5 5 2 2) (junk 5 5) [] 0 0%nat.

Definition blinker_state' : State :=
  mkState (blinker_h 5 5 2 2) (all_alive 5 5) [(0, 0, 255)] 7 3%nat.

Definition lone_state : State :=
  mkState (lone_cell 5 5 0 4) (junk 5 5) [] 0 0%nat.

Definition dead_state : State :=
  mkState (all_dead 5 5) (junk 5 5) [] 0 0%nat.

(** * Further properties: definitions

    [normalise g] keeps of every cell only whether it equals 1. *)
Definition normalise (g : Grid) : Grid :=
  (λ col : list Z, (λ c : Z, if c =? 1 then 1 else 0) <$> col) <$> g.

(** The array [g] seen from [(dx, dy)]: its cell [(x, y)] is the cell
    [(x + dx, y + dy)] of [g], coordinates taken around the torus. *)
Definition shift (W H dx dy : Z) (g : Grid) : Grid :=
  tabulate W H (λ x y,
    default 0 (index g ((x + dx) mod W) ((y + dy) mod H))).

(** ** The window surface

    [DrawCell], lines 37-48, writes through [windowSurface->pixels].  The
    code takes a pixel to be 4 bytes and a row to be [screenWidth] pixels;
    the pixel memory is the list of its bytes, and a write outside it is
    undefined behaviour.  [poke] is [*(pixels + offset) = v] with [v]
    converted to [Uint8]. *)
Definition poke (pixels : list Z) (offset v : Z) : option (list Z) :=
  if (0 <=? offset) && (offset <? Z.of_nat (length pixels)) then
    Some (<[Z.to_nat offset := to_uchar v]> pixels)
  else None.

(** A [for] loop over local state. *)
Fixpoint for_each_on {S : Type} (range : list Z) (body : Z → S → option S)
    (s : S) : option S :=
  match range with
  | [] => Some s
  | i :: rest => s' ← body i s; for_each_on rest body s'
  end.

(** The byte [k] of the pixel [(px, py)]. *)
Definition pixel_offset (screenWidth px py k : Z) : Z :=
  (py * screenWidth + px) * 4 + k.

Section Renderer.

(** Lines 16-22: [cellSize] and the extents are [unsigned int]s, and so are
    the products computed from them. *)
Variable cellSize gridWidth gridHeight : Z.

Definition screenWidth : Z := to_uint (cellSize * gridWidth).
Definition screenHeight : Z := to_uint (cellSize * gridHeight).

(** The inner loop of [DrawCell], lines 41-45: one row of the square. *)
Definition DrawCell_row (pixel_ptr colour : Z) (pixels : list Z)
    : option (list Z) :=
  for_each_on (seqZ 0 cellSize) (λ j pixels,
    pixels ← poke pixels (pixel_ptr + to_uint (j * 4)) colour;
    pixels ← poke pixels (pixel_ptr + to_uint (j * 4) + 1) colour;
    poke pixels (pixel_ptr + to_uint (j * 4) + 2) colour) pixels.

(** [DrawCell] on the pixel memory, lines 37-48.  [pixel_ptr] is kept as an
    offset from [windowSurface->pixels]; the offset of the first pixel is
    computed in [unsigned int]. *)
Definition DrawCell_pixels (x y colour : Z) (pixels : list Z)
    : option (list Z) :=
  let pixel_ptr :=
    to_uint ((y * cellSize * screenWidth + x * cellSize) * 4) in
  snd <$> for_each_on (seqZ 0 cellSize) (λ i st,
    pixels ← DrawCell_row st.1 colour st.2;
    Some (st.1 + to_uint (screenWidth * 4), pixels)) (pixel_ptr, pixels).

(** The effect of a log of [DrawCell] calls on the pixel memory. *)
Fixpoint replay (calls : list (Z * Z * Z)) (pixels : list Z)
    : option (list Z) :=
  match calls with
  | [] => Some pixels
  | (x, y, colour) :: rest =>
      pixels ← DrawCell_pixels x y colour pixels; replay rest pixels
  end.

(** The red, green and blue bytes of every pixel of the window are those of
    the colour of the cell the pixel lies in. *)
Definition shows (pixels : list Z) (g : Grid) : Prop :=
  ∀ px py k,
    0 ≤ px < cellSize * gridWidth → 0 ≤ py < cellSize * gridHeight →
    0 ≤ k < 3 →
    pixels !! Z.to_nat (pixel_offset (cellSize * gridWidth) px py k) =
    (λ c : Z, if c =? 1 then white else black)
      <$> index g (px / cellSize) (py / cellSize).

(** The fourth byte of every pixel is the same in both memories. *)
Definition same_fourth_bytes (pixels pixels' : list Z) : Prop :=
  ∀ px py,
    0 ≤ px < cellSize * gridWidth → 0 ≤ py < cellSize * gridHeight →
    pixels' !! Z.to_nat (pixel_offset (cellSize * gridWidth) px py 3) =
    pixels !! Z.to_nat (pixel_offset (cellSize * gridWidth) px py 3).

(** The surface fits the window and its offsets fit an [unsigned int]. *)
Definition surface_ok (pixels : list Z) : Prop :=
  0 < cellSize ∧ 0 < gridWidth ∧ 0 < gridHeight ∧
  cellSize * gridWidth * (cellSize * gridHeight) * 4 < 2 ^ 32 ∧
  Z.of_nat (length pixels) =
    cellSize * gridWidth * (cellSize * gridHeight) * 4.

End Renderer.

(** Writing the same value at a list of offsets, in order. *)
Fixpoint poke_all (offsets : list Z) (v : Z) (pixels : list Z)
    : option (list Z) :=
  match offsets with
  | [] => Some pixels
  | o :: rest => pixels ← poke pixels o v; poke_all rest v pixels
  end.

(** The offsets one row of a square is written at, from [pixel_ptr]. *)
Definition row_offsets (cellSize pixel_ptr : Z) : list Z :=
  j ← seqZ 0 cellSize;
  [ pixel_ptr + to_uint (j * 4); pixel_ptr + to_uint (j * 4) + 1;
    pixel_ptr + to_uint (j * 4) + 2 ].

(** The offsets [rows] rows are written at, [stride] bytes apart. *)
Fixpoint square_offsets (cellSize stride : Z) (rows : list Z) (pixel_ptr : Z)
    : list Z :=
  match rows with
  | [] => []
  | _ :: rest =>
      row_offsets cellSize pixel_ptr
        ++ square_offsets cellSize stride rest (pixel_ptr + stride)
  end.

(** The [DrawCell] calls that draw every cell of a [W] by [H] grid once,
    column after column, the cell [(x, y)] in the colour of [v x y]. *)
Definition frame_calls (W H : Z) (v : Z → Z → Z) : list (Z * Z * Z) :=
  x ← seqZ 0 W;
  (λ y, (to_uint x, to_uint y, to_uint (colour_of (v x y)))) <$> seqZ 0 H.

(** ** [main], lines 147-188

    What the SDL library answers is an input: the value [SDL_Init]
    returns, whether [SDL_CreateWindow] returns a window, the pixel memory
    of the surface [SDL_GetWindowSurface] returns ([None] for a null
    pointer, which the program does not test for), and, for each pass of
    the run loop, the events [SDL_PollEvent] hands out before it returns 0.
    Console output, [system("pause")] and the calls that present or destroy
    the window touch neither array nor the pixel memory and are left out.
    A script of passes that ends before a quit event leaves the loop
    running. *)
Inductive SDL_EventType : Set := SDL_QUIT | SDL_OTHER.

Global Instance SDL_EventType_eq_dec : EqDecision SDL_EventType.
Proof. solve_decision. Defined.

Record SDL : Type := mkSDL {
  SDL_Init : Z;
  SDL_CreateWindow : bool;
  SDL_GetWindowSurface : option (list Z);
  SDL_PollEvent : list (list SDL_EventType)
}.

Inductive outcome : Set := Returned (code : Z) | StillRunning.

(** Lines 175-177: [while (SDL_PollEvent(&e) != 0) if (e.type == SDL_QUIT)
    quit = true;] *)
Fixpoint poll (events : list SDL_EventType) (quit : bool) : bool :=
  match events with
  | [] => quit
  | e :: rest =>
      poll rest (match e with SDL_QUIT => true | SDL_OTHER => quit end)
  end.

Section Main.

Variable cellSize gridWidth gridHeight percentageInit : Z.
Variable libc_rand : Z → nat → Z.
Variable wall_clock : Z.

(** Line 163, [windowSurface = SDL_GetWindowSurface(window)], and what it
    means for the rest of [main]: every [DrawCell] call made from then on
    writes through [windowSurface->pixels].  The computation [m] is run,
    and the calls it has added to the log are carried out on the pixel
    memory; the run is undefined when one of them is, and when there is a
    call but no surface. *)
Definition through_surface {A} (windowSurface : option (list Z)) (m : M A)
    : M A := λ s,
  r ← m s;
  match drop (length (st_surface s)) (st_surface r.2) with
  | [] => Some r
  | call :: calls =>
      pixels ← windowSurface;
      _ ← replay cellSize gridWidth (call :: calls) pixels;
      Some r
  end.

(** Lines 174-181: [while (!quit) { ...poll...; CalculateNextGeneration(grid,
    gridCopy); SDL_UpdateWindowSurface(window); }] *)
Fixpoint run_loop (passes : list (list SDL_EventType)) (quit : bool)
    : M outcome :=
  match passes with
  | [] => mret (if quit then Returned 0 else StillRunning)
  | events :: rest =>
      if quit then mret (Returned 0)
      else
        CalculateNextGeneration gridWidth gridHeight grid gridCopy ;;
        run_loop rest (poll events quit)
  end.

Definition main (sdl : SDL) : M outcome :=
  if SDL_Init sdl <? 0 then mret (Returned 1)
  else if negb (SDL_CreateWindow sdl) then mret (Returned 1)
  else
    through_surface (SDL_GetWindowSurface sdl)
      (InitGrid gridWidth gridHeight percentageInit libc_rand wall_clock grid ;;
       run_loop (SDL_PollEvent sdl) false).

End Main.

(** Two cells next to each other on an axis: [c] and its high-side
    neighbour. *)
Definition pair_at (N c k : Z) : bool := (k =? c) || (k =? Spec.high N c).

(** The 2 by 2 block whose low corner is [(cx, cy)]. *)
Definition block (W H cx cy : Z) : Grid :=
  tabulate W H (λ x y, if pair_at W cx x && pair_at H cy y then ALIVE else DEAD).

(** ** More sample inputs *)

(** A current array holding bytes other than 0 and 1. *)
Definition mixed_state : State :=
  mkState (tabulate 5 5 (λ x y, if x =? y then 1 else 77)) (junk 5 5)
    [] 0 0%nat.

Definition normalised_mixed_state : State :=
  mkState (normalise (tabulate 5 5 (λ x y, if x =? y then 1 else 77)))
    (all_alive 5 5) [(0, 0, 255)] 7 3%nat.

Definition shifted_blinker_state : State :=
  mkState (shift 5 5 4 2 (blinker_h 5 5 2 2)) (all_dead 5 5) [] 0 0%nat.

(** A block that straddles both edges of a 5 by 5 torus. *)
Definition block_state : State :=
  mkState (block 5 5 4 4) (junk 5 5) [] 0 0%nat.

(** The pixel memory of a 5 by 5 grid drawn with 2 by 2 pixel cells, every
    byte 7. *)
Definition grey_surface : list Z := replicate 400 7.

(** A run of [main] in which the second pass sees a quit event. *)
Definition quit_in_second_pass : SDL :=
  mkSDL 0 true (Some grey_surface)
    [[SDL_OTHER]; [SDL_OTHER; SDL_QUIT; SDL_OTHER]; [SDL_OTHER]].

(** The same run when [SDL_GetWindowSurface] returns a null pointer. *)
Definition quit_without_surface : SDL :=
  mkSDL 0 true None
    [[SDL_OTHER]; [SDL_OTHER; SDL_QUIT; SDL_OTHER]; [SDL_OTHER]].

(** ** Proof steps used more than once *)

(** Case analysis on every integer comparison of the goal, dropping the
    cases the hypotheses exclude. *)
Ltac split_eqb :=
  repeat match goal with
  | |- context [?a =? ?b] =>
      destruct (Z.eqb_spec a b); try (exfalso; lia); cbv iota
  end.

(** Take a disjunction of conjunctions of boolean facts apart and rewrite
    the goal with the facts of each case. *)
Ltac use_profile :=
  repeat match goal with
  | E : _ ∨ _ |- _ => destruct E as [E|E]
  | E : _ ∧ _ |- _ => destruct E as [? E]
  end;
  repeat match goal with
  | E : ?t = true |- _ => rewrite ?E; clear E
  | E : ?t = false |- _ => rewrite ?E; clear E
  end.

(** * Properties *)

(** ** Machine integers in range convert to themselves *)

Lemma to_uint_small z : 0 ≤ z < 2 ^ 32 → to_uint z = z.
Proof. intros Hz. unfold to_uint. by rewrite Z.mod_small. Qed.

Lemma to_int_small z : 0 ≤ z ≤ INT_MAX → to_int z = z.
Proof.
  unfold INT_MAX, to_int. intros Hz. cbv zeta.
  rewrite Z.mod_small by lia.
  destruct (Z.ltb_spec z (2 ^ 31)); lia.
Qed.

(** The extents of the repository are within the range the results below
    ask for. *)
Lemma repository_extents :
  0 < Repository.gridWidth ≤ INT_MAX ∧ 0 < Repository.gridHeight ≤ INT_MAX.
Proof. by vm_compute. Qed.

Lemma to_int_to_uint z : 0 ≤ z ≤ INT_MAX → to_int (to_uint z) = z.
Proof.
  intros Hz. rewrite to_uint_small; [by apply to_int_small|].
  unfold INT_MAX in Hz. lia.
Qed.

(** ** Arrays *)

Lemma index_Some (g : Grid) x y v :
  index g x y = Some v ↔
  0 ≤ x ∧ 0 ≤ y ∧ ∃ col, g !! Z.to_nat x = Some col ∧ col !! Z.to_nat y = Some v.
Proof.
  unfold index.
  destruct (Z.leb_spec 0 x), (Z.leb_spec 0 y); simpl;
    try (split; [done | lia]).
  destruct (g !! Z.to_nat x) as [col|] eqn:Hcol; simpl.
  - split; [by eauto | by intros (_ & _ & ? & [= <-] & ?)].
  - split; [done | by intros (_ & _ & ? & ? & _)].
Qed.

Lemma index_in_range w h (g : Grid) x y :
  dims w h g → 0 ≤ x < w → 0 ≤ y < h → is_Some (index g x y).
Proof.
  intros [Hlen Hcols] Hx Hy.
  destruct (lookup_lt_is_Some_2 g (Z.to_nat x)) as [col Hcol]; [lia|].
  assert (length col = Z.to_nat h) as Hh
    by (eapply (Forall_lookup_1 _ _ _ _ Hcols Hcol)).
  destruct (lookup_lt_is_Some_2 col (Z.to_nat y)) as [v Hv]; [lia|].
  exists v. apply index_Some. eauto with lia.
Qed.

Lemma index_bounds w h (g : Grid) x y v :
  dims w h g → index g x y = Some v → 0 ≤ x < w ∧ 0 ≤ y < h.
Proof.
  intros [Hlen Hcols] (Hx & Hy & col & Hcol & Hv)%index_Some.
  assert (length col = Z.to_nat h) as Hh
    by (eapply (Forall_lookup_1 _ _ _ _ Hcols Hcol)).
  apply lookup_lt_Some in Hcol, Hv. lia.
Qed.

Lemma assign_in_range w h (g : Grid) x y v :
  dims w h g → 0 ≤ x < w → 0 ≤ y < h → is_Some (assign g x y v).
Proof.
  intros [Hlen Hcols] Hx Hy. unfold assign.
  destruct (Z.leb_spec 0 x), (Z.leb_spec 0 y); try lia; simpl.
  destruct (lookup_lt_is_Some_2 g (Z.to_nat x)) as [col Hcol]; [lia|].
  assert (length col = Z.to_nat h) as Hh
    by (eapply (Forall_lookup_1 _ _ _ _ Hcols Hcol)).
  rewrite Hcol. simpl. case_decide; [by eexists | lia].
Qed.

Lemma assign_Some (g g' : Grid) x y v :
  assign g x y v = Some g' →
  0 ≤ x ∧ 0 ≤ y ∧ ∃ col,
    g !! Z.to_nat x = Some col ∧ (Z.to_nat y < length col)%nat ∧
    g' = <[Z.to_nat x := <[Z.to_nat y := to_uchar v]> col]> g.
Proof.
  unfold assign.
  destruct (Z.leb_spec 0 x), (Z.leb_spec 0 y); simpl; try done.
  destruct (g !! Z.to_nat x) as [col|] eqn:Hcol; simpl; [|done].
  case_decide; [|done]. intros [= <-]. eauto 10.
Qed.

Lemma assign_dims w h (g g' : Grid) x y v :
  dims w h g → assign g x y v = Some g' → dims w h g'.
Proof.
  intros [Hlen Hcols] (_ & _ & col & Hcol & _ & ->)%assign_Some. split.
  - by rewrite length_insert.
  - apply Forall_insert; [done|]. rewrite length_insert.
    eapply (Forall_lookup_1 _ _ _ _ Hcols Hcol).
Qed.

Lemma index_assign_eq (g g' : Grid) x y v :
  assign g x y v = Some g' → index g' x y = Some (to_uchar v).
Proof.
  intros (Hx & Hy & col & Hcol & Hlt & ->)%assign_Some.
  apply index_Some. split_and!; [done..|].
  exists (<[Z.to_nat y := to_uchar v]> col). split.
  - apply list_lookup_insert_eq. by eapply lookup_lt_Some.
  - by apply list_lookup_insert_eq.
Qed.

Lemma index_assign_ne (g g' : Grid) x y v x' y' :
  assign g x y v = Some g' → (x', y') ≠ (x, y) →
  index g' x' y' = index g x' y'.
Proof.
  intros (Hx & Hy & col & Hcol & Hlt & ->)%assign_Some Hne.
  unfold index.
  destruct (Z.leb_spec 0 x'), (Z.leb_spec 0 y'); simpl; try done.
  destruct (decide (Z.to_nat x' = Z.to_nat x)) as [Hxx|Hxx].
  - assert (x' = x) as -> by lia.
    rewrite list_lookup_insert_eq by (by eapply lookup_lt_Some).
    rewrite Hcol. simpl. apply list_lookup_insert_ne.
    intros ?. apply Hne. f_equal. lia.
  - by rewrite list_lookup_insert_ne.
Qed.

Lemma tabulate_dims w h f : dims w h (tabulate w h f).
Proof.
  split.
  - unfold tabulate. by rewrite length_fmap, length_seqZ.
  - unfold tabulate. apply Forall_fmap, Forall_forall. intros x _. simpl.
    by rewrite length_fmap, length_seqZ.
Qed.

Lemma index_tabulate w h f x y :
  0 ≤ x < w → 0 ≤ y < h → index (tabulate w h f) x y = Some (f x y).
Proof.
  intros Hx Hy. apply index_Some. split_and!; [lia..|].
  exists (f x <$> seqZ 0 h). unfold tabulate. split.
  - rewrite list_lookup_fmap, lookup_seqZ_lt by lia. simpl.
    by rewrite Z.add_0_l, Z2Nat.id by lia.
  - rewrite list_lookup_fmap, lookup_seqZ_lt by lia. simpl.
    by rewrite Z.add_0_l, Z2Nat.id by lia.
Qed.

(** Two arrays of the same type with the same cells are equal. *)
Lemma grid_ext w h (g1 g2 : Grid) :
  dims w h g1 → dims w h g2 →
  (∀ x y, 0 ≤ x < w → 0 ≤ y < h → index g1 x y = index g2 x y) →
  g1 = g2.
Proof.
  intros [Hl1 Hc1] [Hl2 Hc2] Hcells. apply list_eq. intros i.
  destruct (decide (i < length g1)%nat) as [Hi|Hi].
  - destruct (lookup_lt_is_Some_2 g1 i) as [c1 Hg1]; [done|].
    destruct (lookup_lt_is_Some_2 g2 i) as [c2 Hg2]; [lia|].
    rewrite Hg1, Hg2. f_equal. apply list_eq. intros j.
    pose proof (Forall_lookup_1 _ _ _ _ Hc1 Hg1) as Hh1.
    pose proof (Forall_lookup_1 _ _ _ _ Hc2 Hg2) as Hh2. simpl in *.
    destruct (decide (j < length c1)%nat) as [Hj|Hj].
    + specialize (Hcells (Z.of_nat i) (Z.of_nat j)).
      unfold index in Hcells.
      destruct (Z.leb_spec 0 (Z.of_nat i)), (Z.leb_spec 0 (Z.of_nat j));
        try lia.
      simpl in Hcells. rewrite !Nat2Z.id, Hg1, Hg2 in Hcells.
      apply Hcells; lia.
    + rewrite !lookup_ge_None_2; [done | lia..].
  - rewrite !lookup_ge_None_2; [done | lia..].
Qed.

Lemma binary_index (g : Grid) x y v :
  binary g → index g x y = Some v → v = DEAD ∨ v = ALIVE.
Proof.
  intros Hb (_ & _ & col & Hcol & Hv)%index_Some.
  pose proof (Forall_lookup_1 _ _ _ _ Hb Hcol) as Hc. simpl in Hc.
  apply (Forall_lookup_1 _ _ _ _ Hc Hv).
Qed.

Lemma binary_intro w h (g : Grid) :
  dims w h g →
  (∀ x y v, index g x y = Some v → v = DEAD ∨ v = ALIVE) →
  binary g.
Proof.
  intros Hd Hcells. apply Forall_lookup. intros i col Hcol.
  apply Forall_lookup. intros j v Hv.
  apply (Hcells (Z.of_nat i) (Z.of_nat j)). apply index_Some.
  split_and!; [lia..|]. exists col. by rewrite !Nat2Z.id.
Qed.

(** ** The two arrays are separate objects *)

Lemma deref_update_eq b a s : deref b (update b a s) = a.
Proof. by destruct b. Qed.

Lemma deref_update_ne b b' a s : b ≠ b' → deref b (update b' a s) = deref b s.
Proof. by destruct b, b'. Qed.

Lemma deref_paint b x y c s : deref b (paint x y c s) = deref b s.
Proof. by destruct b. Qed.

(** The parts of the state a write to an array leaves alone. *)
Lemma update_frame b a s :
  st_surface (update b a s) = st_surface s ∧
  st_seed (update b a s) = st_seed s ∧
  st_rand_calls (update b a s) = st_rand_calls s.
Proof. by destruct b. Qed.

(** ** Loops: an invariant indexed by the iterations already done *)

Lemma for_each_from (I : list Z → State → Prop) body range :
  ∀ done s,
    I done s →
    (∀ pre i post s1, done ++ range = pre ++ i :: post → length done ≤ length pre →
       I pre s1 → ∃ s2, run (body i) s1 = Some (tt, s2) ∧ I (pre ++ [i]) s2)%nat →
    ∃ s', run (for_each range body) s = Some (tt, s') ∧ I (done ++ range) s'.
Proof.
  induction range as [|i rest IH]; intros done s HI Hbody.
  - exists s. by rewrite app_nil_r.
  - destruct (Hbody done i rest s) as (s2 & Hrun & HI2); [done..|].
    destruct (IH (done ++ [i]) s2) as (s' & Hrest & HI'); [done| |].
    + intros pre j post s1 Heq Hlen. apply (Hbody pre j post).
      * by rewrite <- Heq, <- app_assoc.
      * rewrite length_app in Hlen. lia.
    + exists s'. split; [|by rewrite <- app_assoc in HI'].
      unfold run in *. simpl. unfold mbind, M_bind. by rewrite Hrun.
Qed.

Lemma for_upto_invariant (I : list Z → State → Prop) body n s :
  I [] s →
  (∀ pre i s1, 0 ≤ i < n → pre = seqZ 0 i →
     I pre s1 → ∃ s2, run (body i) s1 = Some (tt, s2) ∧ I (seqZ 0 (i + 1)) s2) →
  ∃ s', run (for_upto n body) s = Some (tt, s') ∧ I (seqZ 0 n) s'.
Proof.
  intros HI Hbody. unfold for_upto.
  apply (for_each_from I body (seqZ 0 n) [] s HI).
  intros pre i post s1 Heq _ HI1. simpl in Heq.
  assert (pre = seqZ 0 (Z.of_nat (length pre)) ∧ i = Z.of_nat (length pre)
          ∧ Z.of_nat (length pre) < n) as (Hpre & Hi & Hlt).
  { assert (seqZ 0 n !! length pre = Some i) as Hl
      by (rewrite Heq; apply list_lookup_middle; done).
    apply lookup_seqZ in Hl as [Hi Hlt]. split_and!; [|lia|lia].
    apply list_eq. intros k.
    destruct (decide (k < length pre)%nat) as [Hk|Hk].
    - rewrite lookup_seqZ_lt by lia.
      assert (seqZ 0 n !! k = pre !! k) as <-
        by (rewrite Heq; by apply lookup_app_l).
      rewrite lookup_seqZ_lt by lia. done.
    - rewrite lookup_ge_None_2 by lia.
      by rewrite lookup_seqZ_ge by lia. }
  destruct (Hbody pre i s1) as (s2 & Hrun & HI2); [lia|congruence|done|].
  exists s2. split; [done|].
  replace (pre ++ [i]) with (seqZ 0 (i + 1)); [done|]. subst i.
  replace (Z.of_nat (length pre) + 1) with (Z.of_nat (S (length pre))) by lia.
  by rewrite seqZ_S, <- Hpre.
Qed.

Lemma run_bind {A B} (m : M A) (k : A → M B) s a s1 :
  run m s = Some (a, s1) → run (m ≫= k) s = run (k a) s1.
Proof. unfold run, mbind, M_bind. by intros ->. Qed.

(** ** Wraparound: the edge tests compute the modular formula *)

Lemma xL_cases N x :
  0 < N ≤ INT_MAX → 0 ≤ x < N → xL N x = if x =? 0 then N - 1 else x - 1.
Proof.
  intros HN Hx. unfold xL, isLeftEdge.
  destruct (Z.eqb_spec x 0); apply to_int_to_uint; lia.
Qed.

Lemma xR_cases N x :
  0 < N ≤ INT_MAX → 0 ≤ x < N → xR N x = if x =? N - 1 then 0 else x + 1.
Proof.
  intros HN Hx. unfold xR, isRightEdge. unfold INT_MAX in HN.
  by rewrite !to_uint_small by lia.
Qed.

Lemma yT_cases N y :
  0 < N ≤ INT_MAX → 0 ≤ y < N → yT N y = if y =? 0 then N - 1 else y - 1.
Proof. exact (xL_cases N y). Qed.

Lemma yB_cases N y :
  0 < N ≤ INT_MAX → 0 ≤ y < N → yB N y = if y =? N - 1 then 0 else y + 1.
Proof. exact (xR_cases N y). Qed.

Lemma low_cases N c :
  0 < N → 0 ≤ c < N → Spec.low N c = if c =? 0 then N - 1 else c - 1.
Proof.
  intros HN Hc. unfold Spec.low. destruct (Z.eqb_spec c 0) as [->|Hne].
  - replace (0 - 1 + N) with (N - 1) by lia. apply Z.mod_small. lia.
  - replace (c - 1 + N) with (c - 1 + 1 * N) by lia.
    rewrite Z.mod_add by lia. apply Z.mod_small. lia.
Qed.

Lemma high_cases N c :
  0 < N → 0 ≤ c < N → Spec.high N c = if c =? N - 1 then 0 else c + 1.
Proof.
  intros HN Hc. unfold Spec.high. destruct (Z.eqb_spec c (N - 1)) as [->|Hne].
  - replace (N - 1 + 1) with N by lia. apply Z.mod_same. lia.
  - apply Z.mod_small. lia.
Qed.

Lemma xL_formula N x : 0 < N ≤ INT_MAX → 0 ≤ x < N → xL N x = Spec.low N x.
Proof. intros HN Hx. rewrite xL_cases, low_cases by lia. done. Qed.

Lemma xR_formula N x : 0 < N ≤ INT_MAX → 0 ≤ x < N → xR N x = Spec.high N x.
Proof. intros HN Hx. rewrite xR_cases, high_cases by lia. done. Qed.

Lemma yT_formula N y : 0 < N ≤ INT_MAX → 0 ≤ y < N → yT N y = Spec.low N y.
Proof. exact (xL_formula N y). Qed.

Lemma yB_formula N y : 0 < N ≤ INT_MAX → 0 ≤ y < N → yB N y = Spec.high N y.
Proof. exact (xR_formula N y). Qed.

Lemma low_range N c : 0 < N → 0 ≤ Spec.low N c < N.
Proof. intros HN. apply Z.mod_pos_bound. lia. Qed.

Lemma high_range N c : 0 < N → 0 ≤ Spec.high N c < N.
Proof. intros HN. apply Z.mod_pos_bound. lia. Qed.

Lemma neighbours_formula W H x y :
  0 < W ≤ INT_MAX → 0 < H ≤ INT_MAX → 0 ≤ x < W → 0 ≤ y < H →
  neighbours W H x y = Spec.adjacent W H x y.
Proof.
  intros HW HH Hx Hy. unfold neighbours, Spec.adjacent.
  by rewrite xL_formula, xR_formula, yT_formula, yB_formula.
Qed.

(** ** The neighbour count *)

Lemma alive_bit (c : Z) :
  (if decide (Some c = Some ALIVE) then 1 else 0) = (if c =? 1 then 1 else 0).
Proof.
  unfold ALIVE. destruct (Z.eqb_spec c 1) as [->|Hne]; case_decide; try done.
  congruence.
Qed.

Section Engine.

Variables W H : Z.
Hypothesis W_extent : 0 < W ≤ INT_MAX.
Hypothesis H_extent : 0 < H ≤ INT_MAX.

Lemma LiveNeighbourCount_formula (g : Grid) x y :
  dims W H g → 0 ≤ x < W → 0 ≤ y < H →
  LiveNeighbourCount W H x y g = Some (Spec.live_neighbours W H g x y).
Proof.
  intros Hd Hx Hy. unfold LiveNeighbourCount, Spec.live_neighbours, Spec.adjacent.
  rewrite xL_formula, xR_formula, yT_formula, yB_formula by done.
  pose proof (low_range W x) as HxL. pose proof (high_range W x) as HxR.
  pose proof (low_range H y) as HyT. pose proof (high_range H y) as HyB.
  destruct (index_in_range W H g (Spec.low W x) (Spec.low H y)) as [c1 E1]; [done|lia..|].
  destruct (index_in_range W H g x (Spec.low H y)) as [c2 E2]; [done|lia..|].
  destruct (index_in_range W H g (Spec.high W x) (Spec.low H y)) as [c3 E3]; [done|lia..|].
  destruct (index_in_range W H g (Spec.low W x) y) as [c4 E4]; [done|lia..|].
  destruct (index_in_range W H g (Spec.high W x) y) as [c5 E5]; [done|lia..|].
  destruct (index_in_range W H g (Spec.low W x) (Spec.high H y)) as [c6 E6]; [done|lia..|].
  destruct (index_in_range W H g x (Spec.high H y)) as [c7 E7]; [done|lia..|].
  destruct (index_in_range W H g (Spec.high W x) (Spec.high H y)) as [c8 E8]; [done|lia..|].
  unfold Spec.alive_at. simpl.
  rewrite E1, E2, E3, E4, E5, E6, E7, E8. simpl.
  rewrite !alive_bit. f_equal. lia.
Qed.

Lemma live_neighbours_range (g : Grid) x y :
  0 ≤ Spec.live_neighbours W H g x y ≤ 8.
Proof.
  unfold Spec.live_neighbours, Spec.adjacent, Spec.alive_at. simpl.
  repeat case_decide; lia.
Qed.

Lemma next_cell_binary c n : next_cell c n = DEAD ∨ next_cell c n = ALIVE.
Proof.
  unfold next_cell, DEAD, ALIVE.
  destruct (c =? 1), (n =? 2), (n =? 3); simpl; auto.
Qed.

Lemma next_cell_table c n : Spec.rule_table c n (next_cell c n).
Proof.
  unfold Spec.rule_table, next_cell, ALIVE, DEAD.
  destruct (Z.eqb_spec c 1), (Z.eqb_spec n 2), (Z.eqb_spec n 3); simpl;
    split_and!; intros; lia.
Qed.

(** The table determines the next state of a two-valued cell. *)
Lemma rule_table_functional c n v1 v2 :
  c = DEAD ∨ c = ALIVE →
  Spec.rule_table c n v1 → Spec.rule_table c n v2 → v1 = v2.
Proof.
  unfold Spec.rule_table, ALIVE, DEAD.
  intros Hc (A1 & A2 & A3 & A4 & A5) (B1 & B2 & B3 & B4 & B5).
  destruct Hc as [-> | ->].
  - destruct (decide (n = 3)) as [Hn|Hn]; [rewrite A4, B4 | rewrite A5, B5]; done.
  - destruct (decide (n < 2)) as [Hn|Hn]; [rewrite A1, B1; done|].
    destruct (decide (n > 3)) as [Hn'|Hn']; [rewrite A3, B3; done|].
    rewrite A2, B2; [done | lia..].
Qed.

Lemma next_at_formula (g : Grid) x y c :
  dims W H g → 0 ≤ x < W → 0 ≤ y < H → index g x y = Some c →
  next_at W H g x y = next_cell c (Spec.live_neighbours W H g x y).
Proof.
  intros Hd Hx Hy Hc. unfold next_at.
  rewrite Hc, LiveNeighbourCount_formula by done. simpl.
  rewrite to_uint_small; [done|].
  pose proof (live_neighbours_range g x y). lia.
Qed.

(** ** One cell of the update *)

Lemma update_cell_run g gCopy x y s :
  g ≠ gCopy → dims W H (deref g s) → dims W H (deref gCopy s) →
  0 ≤ x < W → 0 ≤ y < H →
  ∃ a, assign (deref gCopy s) x y (next_at W H (deref g s) x y) = Some a ∧
       run (update_cell W H g gCopy x y) s =
         Some (tt, paint x y (colour_of (next_at W H (deref g s) x y))
                     (update gCopy a s)).
Proof.
  intros Hne Hg Hc Hx Hy.
  destruct (assign_in_range W H (deref gCopy s) x y
              (next_at W H (deref g s) x y)) as [a Ha]; [done..|].
  exists a. split; [done|]. revert Ha. unfold next_at.
  destruct (index_in_range W H (deref g s) x y) as [c Ec]; [done..|].
  pose proof (LiveNeighbourCount_formula (deref g s) x y Hg Hx Hy) as En.
  rewrite En, Ec. simpl. intros Ha. unfold update_cell.
  erewrite run_bind;
    [|unfold run, fmap, M_fmap, with_array; rewrite En; reflexivity].
  erewrite run_bind; [|unfold run, load; rewrite Ec; reflexivity].
  revert Ha. unfold next_cell, colour_of.
  destruct (c =? 1);
    destruct (to_uint (Spec.live_neighbours W H (deref g s) x y) =? 2);
    destruct (to_uint (Spec.live_neighbours W H (deref g s) x y) =? 3);
    simpl; intros Ha;
    (erewrite run_bind; [|unfold run, store; rewrite Ha; reflexivity]);
    reflexivity.
Qed.

End Engine.

Lemma seqZ_snoc i : 0 ≤ i → seqZ 0 (i + 1) = seqZ 0 i ++ [i].
Proof.
  intros Hi. replace (i + 1) with (Z.of_nat (S (Z.to_nat i))) by lia.
  rewrite seqZ_S. by rewrite !Z2Nat.id, Z.add_0_l by lia.
Qed.

Lemma elem_of_seqZ_0 n k : k ∈ seqZ 0 n ↔ 0 ≤ k < n.
Proof. rewrite elem_of_seqZ. lia. Qed.

Lemma to_uchar_next_at W H g x y :
  to_uchar (next_at W H g x y) = next_at W H g x y.
Proof.
  unfold next_at.
  by destruct (next_cell_binary (default 0 (index g x y))
                 (to_uint (default 0 (LiveNeighbourCount W H x y g))))
    as [-> | ->].
Qed.

Section Generation.

Variables W H : Z.
Hypothesis W_extent : 0 < W ≤ INT_MAX.
Hypothesis H_extent : 0 < H ≤ INT_MAX.

(** The inner loop fills column [x] of the working array and nothing else. *)
Lemma column_run g gCopy x s :
  g ≠ gCopy → dims W H (deref g s) → dims W H (deref gCopy s) → 0 ≤ x < W →
  ∃ s',
    run (for_upto H (λ y, update_cell W H g gCopy x y)) s = Some (tt, s') ∧
    deref g s' = deref g s ∧
    dims W H (deref gCopy s') ∧
    (∀ y, 0 ≤ y < H →
       index (deref gCopy s') x y = Some (next_at W H (deref g s) x y)) ∧
    (∀ x' y', x' ≠ x →
       index (deref gCopy s') x' y' = index (deref gCopy s) x' y') ∧
    st_surface s' = st_surface s ++
      ((λ y, (to_uint x, to_uint y,
              to_uint (colour_of (next_at W H (deref g s) x y)))) <$> seqZ 0 H) ∧
    st_seed s' = st_seed s ∧ st_rand_calls s' = st_rand_calls s.
Proof.
  intros Hne Hg Hc Hx.
  destruct (for_upto_invariant (λ done s1,
    deref g s1 = deref g s ∧
    dims W H (deref gCopy s1) ∧
    (∀ y, y ∈ done →
       index (deref gCopy s1) x y = Some (next_at W H (deref g s) x y)) ∧
    (∀ x' y', x' ≠ x →
       index (deref gCopy s1) x' y' = index (deref gCopy s) x' y') ∧
    st_surface s1 = st_surface s ++
      ((λ y, (to_uint x, to_uint y,
              to_uint (colour_of (next_at W H (deref g s) x y)))) <$> done) ∧
    st_seed s1 = st_seed s ∧ st_rand_calls s1 = st_rand_calls s)
    (λ y, update_cell W H g gCopy x y) H s) as (s' & Hrun & Hpost).
  - split_and!; try done.
    + intros y Hy. by apply elem_of_nil in Hy.
    + simpl. by rewrite app_nil_r.
  - intros pre y s1 Hy -> (Hg1 & Hc1 & Hdone & Hrest & Hsurf & Hseed & Hcalls).
    destruct (update_cell_run W H W_extent H_extent g gCopy x y s1)
      as (a & Ha & Hrun); [by rewrite ?Hg1..|].
    rewrite Hg1 in Ha, Hrun. eexists. split; [exact Hrun|].
    destruct (update_frame gCopy a s1) as (Fs & Fd & Fc).
    rewrite !deref_paint, deref_update_eq, deref_update_ne by done.
    split_and!.
    + done.
    + by eapply assign_dims.
    + intros y' Hy'%elem_of_seqZ_0. destruct (decide (y' = y)) as [->|Hyy].
      * by rewrite (index_assign_eq _ _ _ _ _ Ha), to_uchar_next_at.
      * rewrite (index_assign_ne _ _ _ _ _ _ _ Ha) by (intros [= ?]; lia).
        apply Hdone, elem_of_seqZ_0. lia.
    + intros x' y' Hx'.
      rewrite (index_assign_ne _ _ _ _ _ _ _ Ha) by (intros [= ?]; lia).
      by apply Hrest.
    + simpl. rewrite Fs, Hsurf, seqZ_snoc, fmap_app, <- app_assoc by lia. done.
    + simpl. by rewrite Fd.
    + simpl. by rewrite Fc.
  - exists s'. destruct Hpost as (? & ? & Hdone & ? & ? & ? & ?).
    split_and!; try done. intros y Hy. by apply Hdone, elem_of_seqZ_0.
Qed.

(** The two loops leave the array they read alone and fill the other one
    with the next generation. *)
Lemma fill_next_run g gCopy s :
  g ≠ gCopy → dims W H (deref g s) → dims W H (deref gCopy s) →
  ∃ s',
    run (fill_next W H g gCopy) s = Some (tt, s') ∧
    deref g s' = deref g s ∧
    deref gCopy s' = next_generation W H (deref g s) ∧
    st_surface s' = st_surface s ++ rendering W H (deref g s) ∧
    st_seed s' = st_seed s ∧ st_rand_calls s' = st_rand_calls s.
Proof.
  intros Hne Hg Hc.
  destruct (for_upto_invariant (λ done s1,
    deref g s1 = deref g s ∧
    dims W H (deref gCopy s1) ∧
    (∀ x y, x ∈ done → 0 ≤ y < H →
       index (deref gCopy s1) x y = Some (next_at W H (deref g s) x y)) ∧
    st_surface s1 = st_surface s ++
      (done ≫= λ x,
         (λ y, (to_uint x, to_uint y,
                to_uint (colour_of (next_at W H (deref g s) x y)))) <$> seqZ 0 H) ∧
    st_seed s1 = st_seed s ∧ st_rand_calls s1 = st_rand_calls s)
    (λ x, for_upto H (λ y, update_cell W H g gCopy x y)) W s)
    as (s' & Hrun & Hg' & Hc' & Hcells & Hsurf & Hseed & Hcalls).
  - split_and!; try done.
    + intros x y Hx. by apply elem_of_nil in Hx.
    + simpl. by rewrite app_nil_r.
  - intros pre x s1 Hx -> (Hg1 & Hc1 & Hdone & Hsurf & Hseed & Hcalls).
    destruct (column_run g gCopy x s1)
      as (s2 & Hrun & Hg2 & Hc2 & Hcol & Hrest & Hsurf2 & Hseed2 & Hcalls2);
      [by rewrite ?Hg1..|].
    rewrite Hg1 in Hcol, Hsurf2.
    exists s2. split; [done|]. split_and!; [congruence|done| |  |congruence..].
    + intros x' y Hx'%elem_of_seqZ_0 Hy.
      destruct (decide (x' = x)) as [->|Hxx]; [by apply Hcol|].
      rewrite Hrest by done. apply Hdone; [|done]. apply elem_of_seqZ_0. lia.
    + rewrite Hsurf2, Hsurf, seqZ_snoc, bind_app, bind_singleton by lia.
      by rewrite <- app_assoc.
  - exists s'. split_and!; try done.
    apply (grid_ext W H); [done|apply tabulate_dims|].
    intros x y Hx Hy. unfold next_generation.
    rewrite index_tabulate by done. apply Hcells; [|done].
    by apply elem_of_seqZ_0.
Qed.

(** The state [CalculateNextGeneration grid gridCopy] ends in. *)
Lemma CalculateNextGeneration_run g gCopy s :
  g ≠ gCopy → dims W H (deref g s) → dims W H (deref gCopy s) →
  ∃ s',
    run (CalculateNextGeneration W H g gCopy) s = Some (tt, s') ∧
    deref g s' = next_generation W H (deref g s) ∧
    deref gCopy s' = next_generation W H (deref g s) ∧
    st_surface s' = st_surface s ++ rendering W H (deref g s) ∧
    st_seed s' = st_seed s ∧ st_rand_calls s' = st_rand_calls s.
Proof.
  intros Hne Hg Hc.
  destruct (fill_next_run g gCopy s)
    as (s1 & Hrun & Hg1 & Hc1 & Hsurf & Hseed & Hcalls); [done..|].
  exists (update g (deref gCopy s1) s1).
  destruct (update_frame g (deref gCopy s1) s1) as (Fs & Fd & Fc).
  split_and!; [|by rewrite deref_update_eq
               |by rewrite deref_update_ne|congruence..].
  unfold CalculateNextGeneration. by erewrite run_bind.
Qed.

Lemma next_generation_dims g : dims W H (next_generation W H g).
Proof. apply tabulate_dims. Qed.


End Generation.

(** ** Seeding *)

Lemma deref_tick b s : deref b (tick s) = deref b s.
Proof. by destruct b. Qed.

Lemma init_value_binary P r : init_value P r = DEAD ∨ init_value P r = ALIVE.
Proof. unfold init_value, DEAD, ALIVE. destruct (_ <? _); auto. Qed.

Lemma init_value_full P r : 100 ≤ to_uint P → init_value P r = ALIVE.
Proof.
  intros HP. unfold init_value.
  pose proof (Z.mod_pos_bound (to_uint r) 100).
  destruct (Z.ltb_spec (to_uint r mod 100) (to_uint P)); [done | lia].
Qed.

Lemma init_value_none P r : to_uint P = 0 → init_value P r = DEAD.
Proof.
  intros HP. unfold init_value. rewrite HP.
  pose proof (Z.mod_pos_bound (to_uint r) 100).
  destruct (Z.ltb_spec (to_uint r mod 100) 0); [lia | done].
Qed.

Section Seeding.

Variables W H P : Z.
Variable libc_rand : Z → nat → Z.
Hypothesis W_extent : 0 < W ≤ INT_MAX.
Hypothesis H_extent : 0 < H ≤ INT_MAX.

Lemma init_cell_run g i j s :
  dims W H (deref g s) → 0 ≤ i < W → 0 ≤ j < H →
  ∃ a,
    assign (deref g s) i j
      (init_value P (libc_rand (st_seed s) (st_rand_calls s))) = Some a ∧
    run (init_cell P libc_rand g i j) s =
      Some (tt, paint i j
                  (colour_of (init_value P
                     (libc_rand (st_seed s) (st_rand_calls s))))
                  (update g a (tick s))).
Proof.
  intros Hg Hi Hj.
  destruct (assign_in_range W H (deref g s) i j
    (init_value P (libc_rand (st_seed s) (st_rand_calls s)))) as [a Ha];
    [done..|].
  exists a. split; [done|]. unfold init_cell.
  rewrite (run_bind _ _ s (libc_rand (st_seed s) (st_rand_calls s)) (tick s))
    by reflexivity.
  pose proof (index_assign_eq _ _ _ _ _ Ha) as Hread.
  revert Ha Hread. unfold colour_of, init_value.
  set (v := if _ <? _ then 1 else 0).
  assert (to_uchar v = v) as -> by (subst v; by destruct (_ <? _)).
  intros Ha Hread.
  erewrite run_bind;
    [|unfold run, store; cbv beta; rewrite deref_tick, Ha; reflexivity].
  erewrite run_bind;
    [|unfold run, load; cbv beta; rewrite deref_update_eq, Hread;
      reflexivity].
  subst v. by destruct (_ <? _).
Qed.

(** The inner loop seeds column [i] with the next [H] values of the
    generator. *)
Lemma init_column_run g i s :
  dims W H (deref g s) → 0 ≤ i < W →
  ∃ s',
    run (for_upto H (λ j, init_cell P libc_rand g i j)) s = Some (tt, s') ∧
    dims W H (deref g s') ∧
    (∀ b, b ≠ g → deref b s' = deref b s) ∧
    (∀ j, 0 ≤ j < H →
       index (deref g s') i j =
         Some (init_value P (libc_rand (st_seed s)
                               (st_rand_calls s + Z.to_nat j)))) ∧
    (∀ i' j, i' ≠ i → index (deref g s') i' j = index (deref g s) i' j) ∧
    st_seed s' = st_seed s ∧
    st_rand_calls s' = (st_rand_calls s + Z.to_nat H)%nat.
Proof.
  intros Hg Hi.
  destruct (for_upto_invariant (λ done s1,
    dims W H (deref g s1) ∧
    (∀ b, b ≠ g → deref b s1 = deref b s) ∧
    (∀ j, j ∈ done →
       index (deref g s1) i j =
         Some (init_value P (libc_rand (st_seed s)
                               (st_rand_calls s + Z.to_nat j)))) ∧
    (∀ i' j, i' ≠ i → index (deref g s1) i' j = index (deref g s) i' j) ∧
    st_seed s1 = st_seed s ∧
    st_rand_calls s1 = (st_rand_calls s + length done)%nat)
    (λ j, init_cell P libc_rand g i j) H s) as (s' & Hrun & Hpost).
  - split_and!; try done; try (simpl; lia).
    intros j Hj. by apply elem_of_nil in Hj.
  - intros pre j s1 Hj -> (Hg1 & Hoth & Hdone & Hrest & Hseed & Hcalls).
    destruct (init_cell_run g i j s1) as (a & Ha & Hrun); [done..|].
    rewrite Hseed, Hcalls, length_seqZ in Ha, Hrun.
    eexists. split; [exact Hrun|].
    rewrite !deref_paint, deref_update_eq. split_and!.
    + by eapply assign_dims.
    + intros b Hb. rewrite deref_paint, deref_update_ne, deref_tick by done.
      by apply Hoth.
    + intros j' Hj'%elem_of_seqZ_0. destruct (decide (j' = j)) as [->|Hjj].
      * rewrite (index_assign_eq _ _ _ _ _ Ha).
        by destruct (init_value_binary P (libc_rand (st_seed s)
                       (st_rand_calls s + Z.to_nat j))) as [-> | ->].
      * rewrite (index_assign_ne _ _ _ _ _ _ _ Ha) by (intros [= ?]; lia).
        apply Hdone, elem_of_seqZ_0. lia.
    + intros i' j' Hi'.
      rewrite (index_assign_ne _ _ _ _ _ _ _ Ha) by (intros [= ?]; lia).
      by apply Hrest.
    + by destruct g.
    + rewrite length_seqZ in Hcalls |- *. destruct g; simpl; lia.
  - exists s'. destruct Hpost as (? & ? & Hdone & ? & ? & Hcalls).
    rewrite length_seqZ in Hcalls. split_and!; try done.
    intros j Hj. by apply Hdone, elem_of_seqZ_0.
Qed.

(** [InitGrid] fills the array it is given, and only that one. *)
Lemma InitGrid_run wall_clock g s :
  dims W H (deref g s) →
  ∃ s',
    run (InitGrid W H P libc_rand wall_clock g) s = Some (tt, s') ∧
    deref g s' = initial_generation W H P libc_rand (to_uint wall_clock) ∧
    (∀ b, b ≠ g → deref b s' = deref b s) ∧
    st_seed s' = to_uint wall_clock ∧
    st_rand_calls s' = Z.to_nat (W * H).
Proof.
  intros Hg. unfold InitGrid. cbv zeta.
  set (seed := to_uint wall_clock).
  set (s0 := mkState (st_grid s) (st_gridCopy s) (st_surface s) seed 0%nat).
  rewrite (run_bind _ _ s tt s0) by reflexivity.
  assert (∀ b, deref b s0 = deref b s) as Hs0 by (by intros []).
  destruct (for_upto_invariant (λ done s1,
    dims W H (deref g s1) ∧
    (∀ b, b ≠ g → deref b s1 = deref b s) ∧
    (∀ i j, i ∈ done → 0 ≤ j < H →
       index (deref g s1) i j =
         Some (init_value P (libc_rand seed (Z.to_nat (i * H + j))))) ∧
    st_seed s1 = seed ∧
    st_rand_calls s1 = (length done * Z.to_nat H)%nat)
    (λ i, for_upto H (λ j, init_cell P libc_rand g i j)) W s0)
    as (s' & Hrun & Hg' & Hoth & Hcells & Hseed & Hcalls).
  - split_and!; try done; try (by rewrite Hs0).
    intros i j Hi. by apply elem_of_nil in Hi.
  - intros pre i s1 Hi -> (Hg1 & Hoth & Hdone & Hseed & Hcalls).
    destruct (init_column_run g i s1)
      as (s2 & Hrun & Hg2 & Hoth2 & Hcol & Hrest & Hseed2 & Hcalls2);
      [done..|].
    rewrite length_seqZ in Hcalls.
    exists s2. split; [done|]. split_and!; [done| | |congruence|].
    + intros b Hb. rewrite Hoth2 by done. by apply Hoth.
    + intros i' j Hi'%elem_of_seqZ_0 Hj.
      destruct (decide (i' = i)) as [->|Hii].
      * rewrite Hcol, Hseed, Hcalls by done. do 3 f_equal.
        rewrite Z2Nat.inj_add, Z2Nat.inj_mul by nia. done.
      * rewrite Hrest by done. apply Hdone; [|done]. apply elem_of_seqZ_0. lia.
    + rewrite Hcalls2, Hcalls, length_seqZ.
      rewrite Z2Nat.inj_add by lia. simpl. lia.
  - exists s'. rewrite length_seqZ in Hcalls. split_and!; try done.
    + apply (grid_ext W H); [done|apply tabulate_dims|].
      intros i j Hi Hj. unfold initial_generation.
      rewrite index_tabulate by done. apply Hcells; [|done].
      by apply elem_of_seqZ_0.
    + rewrite Hcalls, Z2Nat.inj_mul by lia. done.
Qed.

Lemma initial_generation_dims seed :
  dims W H (initial_generation W H P libc_rand seed).
Proof. apply tabulate_dims. Qed.

Lemma initial_generation_binary seed :
  binary (initial_generation W H P libc_rand seed).
Proof.
  apply (binary_intro W H); [apply tabulate_dims|].
  intros x y v Hv.
  destruct (index_bounds W H _ x y v (initial_generation_dims seed) Hv)
    as [Hx Hy].
  unfold initial_generation in Hv. rewrite index_tabulate in Hv by done.
  injection Hv as <-. apply init_value_binary.
Qed.

End Seeding.

(** ** Writes to the working array *)

Lemma store_all_frame g gCopy writes :
  g ≠ gCopy →
  ∀ s s1, run (store_all gCopy writes) s = Some (tt, s1) →
          deref g s1 = deref g s.
Proof.
  intros Hne. induction writes as [|[[x y] v] rest IH]; intros s s1 Hrun.
  - by injection Hrun as <-.
  - simpl in Hrun. unfold run, mbind, M_bind, store in Hrun.
    destruct (assign (deref gCopy s) x y v) as [a|]; [|done]. simpl in Hrun.
    rewrite (IH _ _ Hrun). by apply deref_update_ne.
Qed.

Lemma store_all_total W H gCopy writes :
  Forall (λ w, 0 ≤ w.1.1 < W ∧ 0 ≤ w.1.2 < H) writes →
  ∀ s, dims W H (deref gCopy s) →
       ∃ s1, run (store_all gCopy writes) s = Some (tt, s1) ∧
             dims W H (deref gCopy s1).
Proof.
  induction 1 as [|[[x y] v] rest [Hx Hy] _ IH]; intros s Hd.
  - by exists s.
  - destruct (assign_in_range W H (deref gCopy s) x y v) as [a Ha]; [done..|].
    destruct (IH (update gCopy a s)) as (s1 & Hrun & Hd1).
    { rewrite deref_update_eq. by eapply assign_dims. }
    exists s1. split; [|done]. simpl.
    erewrite run_bind; [exact Hrun|]. unfold run, store. by rewrite Ha.
Qed.

(** ** The run loop *)


(** ** An array that was never written *)



(** * The claims *)

(** C1: for a current array of two-valued cells and a cell [(x, y)] inside
    the extents, one generation step stores for that cell the value the rule
    table gives for its current state [c] and the live count [n] among its
    eight wraparound neighbours, both read from the array as it was before
    the step; the table admits no other value; and the update of the cell
    stores that same value whatever the working array holds at that moment,
    so it sees no value written for another cell during the step. *)
Theorem generation_applies_rule W H g gCopy s x y :
  0 < W ≤ INT_MAX → 0 < H ≤ INT_MAX → g ≠ gCopy →
  dims W H (deref g s) → dims W H (deref gCopy s) → binary (deref g s) →
  0 ≤ x < W → 0 ≤ y < H →
  ∃ s' c v,
    run (CalculateNextGeneration W H g gCopy) s = Some (tt, s') ∧
    index (deref g s) x y = Some c ∧
    LiveNeighbourCount W H x y (deref g s) =
      Some (Spec.live_neighbours W H (deref g s) x y) ∧
    index (deref gCopy s') x y = Some v ∧
    index (deref g s') x y = Some v ∧
    Spec.rule_table c (Spec.live_neighbours W H (deref g s) x y) v ∧
    (∀ v', Spec.rule_table c (Spec.live_neighbours W H (deref g s) x y) v' →
           v' = v) ∧
    (∀ s1, deref g s1 = deref g s → dims W H (deref gCopy s1) →
       ∃ a, assign (deref gCopy s1) x y v = Some a ∧
            run (update_cell W H g gCopy x y) s1 =
              Some (tt, paint x y (colour_of v) (update gCopy a s1))).
Proof.
  intros HW HH Hne Hg Hc Hbin Hx Hy.
  destruct (CalculateNextGeneration_run W H HW HH g gCopy s)
    as (s' & Hrun & Hg' & Hc' & _); [done..|].
  destruct (index_in_range W H (deref g s) x y) as [c Ec]; [done..|].
  pose proof (next_at_formula W H HW HH (deref g s) x y c Hg Hx Hy Ec) as Hv.
  exists s', c, (next_at W H (deref g s) x y). split_and!.
  - done.
  - done.
  - by apply LiveNeighbourCount_formula.
  - rewrite Hc'. by apply index_tabulate.
  - rewrite Hg'. by apply index_tabulate.
  - rewrite Hv. apply next_cell_table.
  - intros v' Hv'. rewrite Hv.
    eapply (rule_table_functional c); [by eapply binary_index|done|].
    apply next_cell_table.
  - intros s1 Hs1 Hc1. rewrite <- Hs1.
    apply update_cell_run; by rewrite ?Hs1.
Qed.

(** C2: inside the extents, the positions [LiveNeighbourCount] reads are the
    eight given by the wraparound formula, [(coord - 1 + N) mod N] on the low
    side and [(coord + 1) mod N] on the high side of each axis; on a 3 by 3
    grid the neighbours of [(0, 0)] include [(2, 2)], [(2, 0)] and
    [(0, 2)]. *)
Theorem neighbours_wrap_around :
  (∀ W H x y,
     0 < W ≤ INT_MAX → 0 < H ≤ INT_MAX → 0 ≤ x < W → 0 ≤ y < H →
     (∀ g, LiveNeighbourCount W H x y g
           = count_alive g (neighbours W H x y) 0) ∧
     xL W x = (x - 1 + W) mod W ∧ xR W x = (x + 1) mod W ∧
     yT H y = (y - 1 + H) mod H ∧ yB H y = (y + 1) mod H ∧
     neighbours W H x y =
       [ ((x - 1 + W) mod W, (y - 1 + H) mod H); (x, (y - 1 + H) mod H);
         ((x + 1) mod W, (y - 1 + H) mod H);
         ((x - 1 + W) mod W, y); ((x + 1) mod W, y);
         ((x - 1 + W) mod W, (y + 1) mod H); (x, (y + 1) mod H);
         ((x + 1) mod W, (y + 1) mod H) ]) ∧
  ((2, 2) ∈ neighbours 3 3 0 0 ∧ (2, 0) ∈ neighbours 3 3 0 0 ∧
   (0, 2) ∈ neighbours 3 3 0 0).
Proof.
  split.
  - intros W H x y HW HH Hx Hy. split_and!.
    + done.
    + by apply xL_formula.
    + by apply xR_formula.
    + by apply yT_formula.
    + by apply yB_formula.
    + by apply neighbours_formula.
  - vm_compute. split_and!; repeat constructor.
Qed.

(** C3: whatever is written into the working array, every cell of the
    current array still reads as before the step until the commit; the
    commit makes the current array equal to the working array, whole, and
    leaves the working array as it is.  This holds for any sequence of
    writes that stays inside the extents (and such a sequence always
    runs), and for the writes [CalculateNextGeneration] itself performs
    before its [memcpy]. *)
Theorem working_array_isolated_until_commit W H g gCopy s :
  0 < W ≤ INT_MAX → 0 < H ≤ INT_MAX → g ≠ gCopy →
  dims W H (deref g s) → dims W H (deref gCopy s) →
  (∀ writes,
     Forall (λ w, 0 ≤ w.1.1 < W ∧ 0 ≤ w.1.2 < H) writes →
     ∃ s1 s2,
       run (store_all gCopy writes) s = Some (tt, s1) ∧
       deref g s1 = deref g s ∧
       (∀ x y, run (load g x y) s1 =
               (λ v, (v, s1)) <$> index (deref g s) x y) ∧
       run (memcpy g gCopy) s1 = Some (tt, s2) ∧
       deref g s2 = deref gCopy s1 ∧
       deref gCopy s2 = deref gCopy s1) ∧
  (∃ s1 s2,
     run (fill_next W H g gCopy) s = Some (tt, s1) ∧
     deref g s1 = deref g s ∧
     run (memcpy g gCopy) s1 = Some (tt, s2) ∧
     run (CalculateNextGeneration W H g gCopy) s = Some (tt, s2) ∧
     deref g s2 = deref gCopy s1 ∧
     deref gCopy s2 = deref gCopy s1).
Proof.
  intros HW HH Hne Hg Hc. split.
  - intros writes Hin.
    destruct (store_all_total W H gCopy writes Hin s Hc) as (s1 & Hrun & _).
    pose proof (store_all_frame g gCopy writes Hne s s1 Hrun) as Hframe.
    exists s1, (update g (deref gCopy s1) s1). split_and!.
    + done.
    + done.
    + intros x y. unfold run, load. rewrite Hframe.
      by destruct (index (deref g s) x y).
    + done.
    + by rewrite deref_update_eq.
    + by rewrite deref_update_ne.
  - destruct (fill_next_run W H HW HH g gCopy s)
      as (s1 & Hrun & Hg1 & _); [done..|].
    exists s1, (update g (deref gCopy s1) s1). split_and!.
    + done.
    + done.
    + done.
    + unfold CalculateNextGeneration. by erewrite run_bind.
    + by rewrite deref_update_eq.
    + by rewrite deref_update_ne.
Qed.

(** C4: two states whose current arrays are equal, whatever their working
    arrays hold, are taken by one generation step to states whose current
    arrays are equal and whose working arrays are equal; the step also
    issues the same [DrawCell] calls in both. *)
Theorem generation_deterministic W H g gCopy s t :
  0 < W ≤ INT_MAX → 0 < H ≤ INT_MAX → g ≠ gCopy →
  dims W H (deref g s) → dims W H (deref gCopy s) → dims W H (deref gCopy t) →
  deref g t = deref g s →
  ∃ s' t' calls,
    run (CalculateNextGeneration W H g gCopy) s = Some (tt, s') ∧
    run (CalculateNextGeneration W H g gCopy) t = Some (tt, t') ∧
    deref g s' = deref g t' ∧
    deref gCopy s' = deref gCopy t' ∧
    st_surface s' = st_surface s ++ calls ∧
    st_surface t' = st_surface t ++ calls.
Proof.
  intros HW HH Hne Hg Hc Hct Heq.
  destruct (CalculateNextGeneration_run W H HW HH g gCopy s)
    as (s' & Hrun & Hg' & Hc' & Hsurf & _); [done..|].
  destruct (CalculateNextGeneration_run W H HW HH g gCopy t)
    as (t' & Hrunt & Hgt' & Hct' & Hsurft & _); [by rewrite ?Heq..|].
  rewrite Heq in Hgt', Hct', Hsurft.
  exists s', t', (rendering W H (deref g s)).
  split_and!; congruence.
Qed.

(** C10: when a generation step returns, the current array and the working
    array are equal, and both are the next generation of the array the step
    started from: nothing of the working array's earlier contents is left. *)
Theorem arrays_agree_after_generation W H g gCopy s :
  0 < W ≤ INT_MAX → 0 < H ≤ INT_MAX → g ≠ gCopy →
  dims W H (deref g s) → dims W H (deref gCopy s) →
  ∃ s',
    run (CalculateNextGeneration W H g gCopy) s = Some (tt, s') ∧
    deref g s' = deref gCopy s' ∧
    (∀ x y, index (deref g s') x y = index (deref gCopy s') x y) ∧
    deref gCopy s' = next_generation W H (deref g s).
Proof.
  intros HW HH Hne Hg Hc.
  destruct (CalculateNextGeneration_run W H HW HH g gCopy s)
    as (s' & Hrun & Hg' & Hc' & _); [done..|].
  exists s'. split_and!; [done|congruence| |done].
  intros x y. congruence.
Qed.



(** ** Arrays given by a function *)

Lemma tabulate_ext W H f1 f2 :
  (∀ x y, 0 ≤ x < W → 0 ≤ y < H → f1 x y = f2 x y) →
  tabulate W H f1 = tabulate W H f2.
Proof.
  intros Hf. apply (grid_ext W H); [apply tabulate_dims..|].
  intros x y Hx Hy. rewrite !index_tabulate by done. f_equal. by apply Hf.
Qed.

Lemma tabulate_binary W H f :
  (∀ x y, f x y = DEAD ∨ f x y = ALIVE) → binary (tabulate W H f).
Proof.
  intros Hf. unfold binary, tabulate.
  apply Forall_fmap, Forall_forall. intros x _. simpl.
  apply Forall_fmap, Forall_forall. intros y _. apply Hf.
Qed.

Lemma alive_at_tabulate W H f i j :
  0 ≤ i < W → 0 ≤ j < H →
  Spec.alive_at (tabulate W H f) (i, j) = if f i j =? 1 then 1 else 0.
Proof.
  intros Hi Hj. unfold Spec.alive_at. simpl.
  rewrite index_tabulate by done. apply alive_bit.
Qed.

Lemma live_neighbours_tabulate W H f x y :
  0 < W → 0 < H → 0 ≤ x < W → 0 ≤ y < H →
  Spec.live_neighbours W H (tabulate W H f) x y =
  foldr (λ p n, (if f p.1 p.2 =? 1 then 1 else 0) + n) 0
    (Spec.adjacent W H x y).
Proof.
  intros HW HH Hx Hy. unfold Spec.live_neighbours, Spec.adjacent. simpl.
  pose proof (low_range W x HW). pose proof (high_range W x HW).
  pose proof (low_range H y HH). pose proof (high_range H y HH).
  by rewrite !alive_at_tabulate.
Qed.

Lemma next_generation_tabulate W H f :
  0 < W ≤ INT_MAX → 0 < H ≤ INT_MAX →
  next_generation W H (tabulate W H f) =
  tabulate W H (λ x y,
    next_cell (f x y)
      (foldr (λ p n, (if f p.1 p.2 =? 1 then 1 else 0) + n) 0
         (Spec.adjacent W H x y))).
Proof.
  intros HW HH. apply tabulate_ext. intros x y Hx Hy.
  rewrite (next_at_formula W H HW HH _ x y (f x y));
    [|apply tabulate_dims|done..|by apply index_tabulate].
  by rewrite live_neighbours_tabulate by lia.
Qed.

Lemma next_generation_all_dead W H :
  0 < W ≤ INT_MAX → 0 < H ≤ INT_MAX →
  next_generation W H (all_dead W H) = all_dead W H.
Proof.
  intros HW HH. unfold all_dead. by rewrite next_generation_tabulate.
Qed.

(** C6: a live cell none of whose eight neighbours is alive is dead after
    one generation step; and from the array with every cell dead, any number
    of frames of the run loop returns and leaves every cell dead. *)
Theorem lone_cell_dies_and_dead_grid_stays_dead W H :
  0 < W ≤ INT_MAX → 0 < H ≤ INT_MAX →
  (∀ g gCopy s x y,
     g ≠ gCopy → dims W H (deref g s) → dims W H (deref gCopy s) →
     0 ≤ x < W → 0 ≤ y < H →
     index (deref g s) x y = Some ALIVE →
     LiveNeighbourCount W H x y (deref g s) = Some 0 →
     ∃ s', run (CalculateNextGeneration W H g gCopy) s = Some (tt, s') ∧
           index (deref g s') x y = Some DEAD) ∧
  (∀ n s,
     st_grid s = all_dead W H → dims W H (st_gridCopy s) →
     ∃ s', run (frames W H n) s = Some (tt, s') ∧
           st_grid s' = all_dead W H ∧
           (∀ x y, 0 ≤ x < W → 0 ≤ y < H →
                   index (st_grid s') x y = Some DEAD)).
Proof.
  intros HW HH. split.
  - intros g gCopy s x y Hne Hg Hc Hx Hy Hcell Hcount.
    destruct (CalculateNextGeneration_run W H HW HH g gCopy s)
      as (s' & Hrun & Hg' & _); [done..|].
    exists s'. split; [done|]. rewrite Hg'. unfold next_generation.
    rewrite index_tabulate by done. unfold next_at.
    by rewrite Hcell, Hcount.
  - induction n as [|n IH]; intros s Hdead Hc.
    + exists s. split_and!; [done..|]. intros x y Hx Hy. rewrite Hdead.
      by apply index_tabulate.
    + destruct (CalculateNextGeneration_run W H HW HH grid gridCopy s)
        as (s1 & Hrun & Hg1 & Hc1 & _);
        [done|simpl; rewrite Hdead; apply tabulate_dims|done|].
      simpl in Hg1, Hc1. rewrite Hdead, next_generation_all_dead in Hg1, Hc1
        by done.
      destruct (IH s1) as (s' & Hrest & Hpost);
        [done|rewrite Hc1; apply tabulate_dims|].
      exists s'. split; [|done]. simpl. by erewrite run_bind.
Qed.

(** C7: on the 3 by 3 grid with every cell alive, the live-neighbour count
    of every cell is 8. *)
Theorem all_alive_3x3_counts_eight x y :
  0 ≤ x < 3 → 0 ≤ y < 3 →
  LiveNeighbourCount 3 3 x y (all_alive 3 3) = Some 8.
Proof.
  intros Hx Hy.
  assert (x = 0 ∨ x = 1 ∨ x = 2) as [-> | [-> | ->]] by lia;
    (assert (y = 0 ∨ y = 1 ∨ y = 2) as [-> | [-> | ->]] by lia);
    reflexivity.
Qed.

(** C8, as the specification states it, fails: with the extents of the
    repository and a percentage of 150 (outside [0, 100]) [InitGrid]
    returns, and the array it seeded is a 200 by 200 array of two-valued
    cells. *)
Lemma init_out_of_range_percentage_accepted :
  ¬ (∀ W H P, W ≤ 0 ∨ H ≤ 0 ∨ P < 0 ∨ 100 < P → init_rejected W H P).
Proof.
  intros Hclaim.
  destruct repository_extents as [HW HH].
  pose (W := Repository.gridWidth). pose (H := Repository.gridHeight).
  pose (s := mkState (junk W H) (junk W H) [] 0 0%nat).
  destruct (InitGrid_run W H 150 (λ _ k, Z.of_nat k * 37) HW HH
              1700000000 grid s)
    as (s' & Hrun & Hg' & _); [apply tabulate_dims|].
  apply (Hclaim W H 150 ltac:(lia) (λ _ k, Z.of_nat k * 37) 1700000000
           grid s s'); [apply tabulate_dims|done|].
  rewrite Hg'. split.
  - apply initial_generation_dims.
  - by apply initial_generation_binary.
Qed.

(** C8, amended: [InitGrid] has no error path.  For positive extents that
    fit an [int], any number [P] given for the percentage, any generator and
    any clock value it returns with the array seeded from the generator, a
    [W] by [H] array of two-valued cells.  The percentage compared with is
    [P] as an [unsigned int]: when that is 100 or more every cell is alive,
    and when it is 0 every cell is dead. *)
Theorem InitGrid_always_seeds W H P libc_rand wall_clock g s :
  0 < W ≤ INT_MAX → 0 < H ≤ INT_MAX → dims W H (deref g s) →
  ∃ s',
    run (InitGrid W H P libc_rand wall_clock g) s = Some (tt, s') ∧
    deref g s' = initial_generation W H P libc_rand (to_uint wall_clock) ∧
    dims W H (deref g s') ∧ binary (deref g s') ∧
    (100 ≤ to_uint P → deref g s' = all_alive W H) ∧
    (to_uint P = 0 → deref g s' = all_dead W H).
Proof.
  intros HW HH Hg.
  destruct (InitGrid_run W H P libc_rand HW HH wall_clock g s)
    as (s' & Hrun & Hg' & _); [done|].
  exists s'. rewrite Hg'. split_and!.
  - done.
  - done.
  - apply initial_generation_dims.
  - apply initial_generation_binary.
  - intros HP. apply tabulate_ext. intros. by apply init_value_full.
  - intros HP. apply tabulate_ext. intros. by apply init_value_none.
Qed.

(** ** The blinker

    On one axis, what a cell [k] and its two neighbours see of a centre [c]
    and of the three-cell segment around it. *)

Lemma point_profile N c k :
  3 ≤ N → 0 ≤ c < N → 0 ≤ k < N →
  ((Spec.low N k =? c) = false ∧ (k =? c) = true ∧
   (Spec.high N k =? c) = false ∧ near N c k = true) ∨
  ((Spec.low N k =? c) = true ∧ (k =? c) = false ∧
   (Spec.high N k =? c) = false ∧ near N c k = true) ∨
  ((Spec.low N k =? c) = false ∧ (k =? c) = false ∧
   (Spec.high N k =? c) = true ∧ near N c k = true) ∨
  ((Spec.low N k =? c) = false ∧ (k =? c) = false ∧
   (Spec.high N k =? c) = false ∧ near N c k = false).
Proof.
  intros HN Hc Hk. unfold near.
  rewrite (low_cases N k), (high_cases N k), (low_cases N c), (high_cases N c)
    by lia.
  destruct (Z.eqb_spec k 0), (Z.eqb_spec k (N - 1)),
    (Z.eqb_spec c 0), (Z.eqb_spec c (N - 1));
    try (exfalso; lia); split_eqb; simpl; auto 10.
Qed.

Lemma near_profile N c k :
  5 ≤ N → 0 ≤ c < N → 0 ≤ k < N →
  ((k =? c) = true ∧ near N c (Spec.low N k) = true ∧ near N c k = true ∧
   near N c (Spec.high N k) = true) ∨
  ((k =? c) = false ∧ near N c (Spec.low N k) = false ∧ near N c k = true ∧
   near N c (Spec.high N k) = true) ∨
  ((k =? c) = false ∧ near N c (Spec.low N k) = true ∧ near N c k = true ∧
   near N c (Spec.high N k) = false) ∨
  ((k =? c) = false ∧ near N c (Spec.low N k) = true ∧ near N c k = false ∧
   near N c (Spec.high N k) = false) ∨
  ((k =? c) = false ∧ near N c (Spec.low N k) = false ∧ near N c k = false ∧
   near N c (Spec.high N k) = true) ∨
  ((k =? c) = false ∧ near N c (Spec.low N k) = false ∧ near N c k = false ∧
   near N c (Spec.high N k) = false).
Proof.
  intros HN Hc Hk. unfold near.
  rewrite (low_cases N k), (high_cases N k), (low_cases N c), (high_cases N c)
    by lia.
  destruct (Z.eqb_spec k 0), (Z.eqb_spec k (N - 1)),
    (Z.eqb_spec c 0), (Z.eqb_spec c (N - 1));
    try (exfalso; lia); split_eqb; simpl; auto 10.
Qed.

Lemma blinker_h_step W H cx cy :
  5 ≤ W ≤ INT_MAX → 5 ≤ H ≤ INT_MAX → 0 ≤ cx < W → 0 ≤ cy < H →
  next_generation W H (blinker_h W H cx cy) = blinker_v W H cx cy.
Proof.
  intros HW HH Hcx Hcy. unfold blinker_h, blinker_v.
  rewrite next_generation_tabulate by lia.
  apply tabulate_ext. intros x y Hx Hy.
  unfold Spec.adjacent. cbn [foldr fst snd].
  pose proof (near_profile W cx x ltac:(lia) Hcx Hx) as PX.
  pose proof (point_profile H cy y ltac:(lia) Hcy Hy) as PY.
  clear HW HH Hcx Hcy Hx Hy. use_profile; reflexivity.
Qed.

Lemma blinker_v_step W H cx cy :
  5 ≤ W ≤ INT_MAX → 5 ≤ H ≤ INT_MAX → 0 ≤ cx < W → 0 ≤ cy < H →
  next_generation W H (blinker_v W H cx cy) = blinker_h W H cx cy.
Proof.
  intros HW HH Hcx Hcy. unfold blinker_h, blinker_v.
  rewrite next_generation_tabulate by lia.
  apply tabulate_ext. intros x y Hx Hy.
  unfold Spec.adjacent. cbn [foldr fst snd].
  pose proof (point_profile W cx x ltac:(lia) Hcx Hx) as PX.
  pose proof (near_profile H cy y ltac:(lia) Hcy Hy) as PY.
  clear HW HH Hcx Hcy Hx Hy. use_profile; reflexivity.
Qed.

(** C5: on a grid of at least 5 by 5 cells holding three live cells in a
    row along [x] (centred anywhere, wrapping at the edges) and nothing else,
    one generation step gives the three cells in a row along [y] through the
    same centre, a second step gives back the first pattern, and so do two
    frames of the run loop. *)
Theorem blinker_has_period_two W H cx cy s :
  5 ≤ W ≤ INT_MAX → 5 ≤ H ≤ INT_MAX → 0 ≤ cx < W → 0 ≤ cy < H →
  st_grid s = blinker_h W H cx cy → dims W H (st_gridCopy s) →
  ∃ s1 s2,
    run (CalculateNextGeneration W H grid gridCopy) s = Some (tt, s1) ∧
    st_grid s1 = blinker_v W H cx cy ∧
    run (CalculateNextGeneration W H grid gridCopy) s1 = Some (tt, s2) ∧
    st_grid s2 = blinker_h W H cx cy ∧
    run (frames W H 2) s = Some (tt, s2).
Proof.
  intros HW HH Hcx Hcy Hs Hc.
  assert (0 < W ≤ INT_MAX ∧ 0 < H ≤ INT_MAX) as [HW' HH'] by lia.
  destruct (CalculateNextGeneration_run W H HW' HH' grid gridCopy s)
    as (s1 & Hrun1 & Hg1 & Hc1 & _);
    [done|simpl; rewrite Hs; apply tabulate_dims|done|].
  simpl in Hg1, Hc1. rewrite Hs, blinker_h_step in Hg1, Hc1 by done.
  destruct (CalculateNextGeneration_run W H HW' HH' grid gridCopy s1)
    as (s2 & Hrun2 & Hg2 & _);
    [done|simpl; rewrite Hg1; apply tabulate_dims
         |simpl; rewrite Hc1; apply tabulate_dims|].
  simpl in Hg2. rewrite Hg1, blinker_v_step in Hg2 by done.
  exists s1, s2. split_and!; [done..|].
  simpl. erewrite run_bind by exact Hrun1. by erewrite run_bind by exact Hrun2.
Qed.

(** * The theorems at concrete inputs *)

Lemma small_extent n : 0 < n ≤ 5 → 0 < n ≤ INT_MAX.
Proof. unfold INT_MAX. lia. Qed.

Lemma blinker_h_binary W H cx cy : binary (blinker_h W H cx cy).
Proof. apply tabulate_binary. intros x y. destruct (_ && _); auto. Qed.

Lemma generation_applies_rule_witness :
  ∃ s' c v,
    run (CalculateNextGeneration 5 5 grid gridCopy) blinker_state
      = Some (tt, s') ∧
    index (deref grid blinker_state) 2 1 = Some c ∧
    LiveNeighbourCount 5 5 2 1 (deref grid blinker_state) =
      Some (Spec.live_neighbours 5 5 (deref grid blinker_state) 2 1) ∧
    index (deref gridCopy s') 2 1 = Some v ∧
    index (deref grid s') 2 1 = Some v ∧
    Spec.rule_table c (Spec.live_neighbours 5 5 (deref grid blinker_state) 2 1) v ∧
    (∀ v', Spec.rule_table c
             (Spec.live_neighbours 5 5 (deref grid blinker_state) 2 1) v' →
           v' = v) ∧
    (∀ s1, deref grid s1 = deref grid blinker_state →
           dims 5 5 (deref gridCopy s1) →
       ∃ a, assign (deref gridCopy s1) 2 1 v = Some a ∧
            run (update_cell 5 5 grid gridCopy 2 1) s1 =
              Some (tt, paint 2 1 (colour_of v) (update gridCopy a s1))).
Proof.
  apply (generation_applies_rule 5 5 grid gridCopy blinker_state 2 1).
  - apply small_extent. lia.
  - apply small_extent. lia.
  - discriminate.
  - apply tabulate_dims.
  - apply tabulate_dims.
  - apply blinker_h_binary.
  - lia.
  - lia.
Defined.

Lemma neighbours_wrap_around_witness :
  xL 3 0 = (0 - 1 + 3) mod 3 ∧ xR 3 0 = (0 + 1) mod 3 ∧
  yT 3 0 = (0 - 1 + 3) mod 3 ∧ yB 3 0 = (0 + 1) mod 3.
Proof.
  destruct (proj1 neighbours_wrap_around 3 3 0 0)
    as (_ & HxL & HxR & HyT & HyB & _).
  - apply small_extent. lia.
  - apply small_extent. lia.
  - lia.
  - lia.
  - exact (conj HxL (conj HxR (conj HyT HyB))).
Defined.

Lemma working_array_isolated_until_commit_witness :
  ∃ s1 s2,
    run (store_all gridCopy [(1, 1, 1); (2, 3, 0); (1, 1, 0)]) blinker_state
      = Some (tt, s1) ∧
    deref grid s1 = deref grid blinker_state ∧
    (∀ x y, run (load grid x y) s1 =
            (λ v, (v, s1)) <$> index (deref grid blinker_state) x y) ∧
    run (memcpy grid gridCopy) s1 = Some (tt, s2) ∧
    deref grid s2 = deref gridCopy s1 ∧
    deref gridCopy s2 = deref gridCopy s1.
Proof.
  apply (working_array_isolated_until_commit 5 5 grid gridCopy blinker_state).
  - apply small_extent. lia.
  - apply small_extent. lia.
  - discriminate.
  - apply tabulate_dims.
  - apply tabulate_dims.
  - repeat (apply Forall_cons_2; [simpl; lia|]). apply Forall_nil_2.
Defined.

Lemma generation_deterministic_witness :
  ∃ s' t' calls,
    run (CalculateNextGeneration 5 5 grid gridCopy) blinker_state
      = Some (tt, s') ∧
    run (CalculateNextGeneration 5 5 grid gridCopy) blinker_state'
      = Some (tt, t') ∧
    deref grid s' = deref grid t' ∧
    deref gridCopy s' = deref gridCopy t' ∧
    st_surface s' = st_surface blinker_state ++ calls ∧
    st_surface t' = st_surface blinker_state' ++ calls.
Proof.
  apply (generation_deterministic 5 5 grid gridCopy blinker_state blinker_state').
  - apply small_extent. lia.
  - apply small_extent. lia.
  - discriminate.
  - apply tabulate_dims.
  - apply tabulate_dims.
  - apply tabulate_dims.
  - reflexivity.
Defined.

Lemma blinker_has_period_two_witness :
  ∃ s1 s2,
    run (CalculateNextGeneration 5 5 grid gridCopy) blinker_state
      = Some (tt, s1) ∧
    st_grid s1 = blinker_v 5 5 2 2 ∧
    run (CalculateNextGeneration 5 5 grid gridCopy) s1 = Some (tt, s2) ∧
    st_grid s2 = blinker_h 5 5 2 2 ∧
    run (frames 5 5 2) blinker_state = Some (tt, s2).
Proof.
  apply (blinker_has_period_two 5 5 2 2 blinker_state).
  - unfold INT_MAX. lia.
  - unfold INT_MAX. lia.
  - lia.
  - lia.
  - reflexivity.
  - apply tabulate_dims.
Defined.

Lemma lone_cell_dies_and_dead_grid_stays_dead_witness :
  (∃ s', run (CalculateNextGeneration 5 5 grid gridCopy) lone_state
           = Some (tt, s') ∧
         index (deref grid s') 0 4 = Some DEAD) ∧
  (∃ s', run (frames 5 5 3) dead_state = Some (tt, s') ∧
         st_grid s' = all_dead 5 5 ∧
         (∀ x y, 0 ≤ x < 5 → 0 ≤ y < 5 →
                 index (st_grid s') x y = Some DEAD)).
Proof.
  destruct (lone_cell_dies_and_dead_grid_stays_dead 5 5) as [Hlone Hdead].
  - apply small_extent. lia.
  - apply small_extent. lia.
  - split.
    + apply (Hlone grid gridCopy lone_state 0 4).
      * discriminate.
      * apply tabulate_dims.
      * apply tabulate_dims.
      * lia.
      * lia.
      * reflexivity.
      * reflexivity.
    + apply (Hdead 3%nat dead_state).
      * reflexivity.
      * apply tabulate_dims.
Defined.

Lemma all_alive_3x3_counts_eight_witness :
  LiveNeighbourCount 3 3 0 2 (all_alive 3 3) = Some 8.
Proof. apply (all_alive_3x3_counts_eight 0 2); lia. Defined.

Lemma InitGrid_always_seeds_witness :
  ∃ s',
    run (InitGrid 5 5 150 (λ _ k, Z.of_nat k * 37) 1700000000 grid) dead_state
      = Some (tt, s') ∧
    deref grid s' =
      initial_generation 5 5 150 (λ _ k, Z.of_nat k * 37)
        (to_uint 1700000000) ∧
    dims 5 5 (deref grid s') ∧ binary (deref grid s') ∧
    (100 ≤ to_uint 150 → deref grid s' = all_alive 5 5) ∧
    (to_uint 150 = 0 → deref grid s' = all_dead 5 5).
Proof.
  apply (InitGrid_always_seeds 5 5 150 (λ _ k, Z.of_nat k * 37) 1700000000
           grid dead_state).
  - apply small_extent. lia.
  - apply small_extent. lia.
  - apply tabulate_dims.
Defined.


Lemma arrays_agree_after_generation_witness :
  ∃ s',
    run (CalculateNextGeneration 5 5 grid gridCopy) blinker_state
      = Some (tt, s') ∧
    deref grid s' = deref gridCopy s' ∧
    (∀ x y, index (deref grid s') x y = index (deref gridCopy s') x y) ∧
    deref gridCopy s' = next_generation 5 5 (deref grid blinker_state).
Proof.
  apply (arrays_agree_after_generation 5 5 grid gridCopy blinker_state).
  - apply small_extent. lia.
  - apply small_extent. lia.
  - discriminate.
  - apply tabulate_dims.
  - apply tabulate_dims.
Defined.

(** A call with both references bound to [grid] is a different matter: the
    update then reads cells it has just written, and the blinker is wiped
    out instead of turned. *)
Example in_place_update_wipes_blinker :
  (st_grid ∘ snd) <$> run (CalculateNextGeneration 5 5 grid grid) blinker_state
    = Some (all_dead 5 5) ∧
  all_dead 5 5 ≠ blinker_v 5 5 2 2.
Proof. split; [by vm_compute|]. by vm_compute. Qed.

(** * Further properties of the code *)

(** ** The neighbour count and the bounds of the array *)

Lemma index_normalise (g : Grid) x y :
  index (normalise g) x y = (λ c : Z, if c =? 1 then 1 else 0) <$> index g x y.
Proof.
  unfold index, normalise.
  destruct ((0 <=? x) && (0 <=? y)); [|done].
  rewrite list_lookup_fmap. destruct (g !! Z.to_nat x) as [col|]; [|done].
  simpl. by rewrite list_lookup_fmap.
Qed.

Lemma normalise_dims W H g : dims W H g → dims W H (normalise g).
Proof.
  intros [Hl Hc]. split.
  - unfold normalise. by rewrite length_fmap.
  - unfold normalise. apply Forall_fmap. eapply Forall_impl; [exact Hc|].
    intros col Hcol. simpl. by rewrite length_fmap.
Qed.

Lemma bit_of_bit (c : Z) :
  ((if c =? 1 then 1 else 0) =? 1) = (c =? 1).
Proof. by destruct (c =? 1). Qed.

(** X1: for a cell inside the extents, each of the eight positions
    [LiveNeighbourCount] reads lies inside the extents, so the function
    returns, and its result is between 0 and 8. *)
Theorem LiveNeighbourCount_stays_in_bounds W H g x y :
  0 < W ≤ INT_MAX → 0 < H ≤ INT_MAX → dims W H g →
  0 ≤ x < W → 0 ≤ y < H →
  Forall (λ p, 0 ≤ p.1 < W ∧ 0 ≤ p.2 < H) (neighbours W H x y) ∧
  ∃ n, LiveNeighbourCount W H x y g = Some n ∧ 0 ≤ n ≤ 8.
Proof.
  intros HW HH Hd Hx Hy. split.
  - rewrite neighbours_formula by done. unfold Spec.adjacent.
    pose proof (low_range W x). pose proof (high_range W x).
    pose proof (low_range H y). pose proof (high_range H y).
    repeat (apply Forall_cons_2; [simpl; lia|]). apply Forall_nil_2.
  - exists (Spec.live_neighbours W H g x y). split.
    + by apply LiveNeighbourCount_formula.
    + apply live_neighbours_range.
Qed.

(** X2: [LiveNeighbourCount] checks nothing itself: called for a position
    outside the extents it reads outside the array, whatever the array
    holds. *)
Theorem LiveNeighbourCount_outside_is_undefined W H g x y :
  dims W H g → ¬ (0 ≤ x < W ∧ 0 ≤ y < H) →
  LiveNeighbourCount W H x y g = None.
Proof.
  intros Hd Hout.
  destruct (LiveNeighbourCount W H x y g) as [n|] eqn:E; [|done].
  exfalso. apply Hout. unfold LiveNeighbourCount in E.
  destruct (index g (xL W x) (yT H y)) as [c1|]; [simpl in E|done].
  destruct (index g x (yT H y)) as [c2|] eqn:E2; [simpl in E|done].
  destruct (index g (xR W x) (yT H y)) as [c3|]; [simpl in E|done].
  destruct (index g (xL W x) y) as [c4|] eqn:E4; [|done].
  apply (index_bounds W H) in E2, E4; [lia|done..].
Qed.

(** X3: the cell and the eight positions read for it are nine different
    positions exactly when both extents are at least 3; on a narrower grid
    some neighbour is counted more than once. *)
Theorem neighbours_distinct_iff_extents_at_least_3 W H x y :
  0 < W ≤ INT_MAX → 0 < H ≤ INT_MAX → 0 ≤ x < W → 0 ≤ y < H →
  NoDup ((x, y) :: neighbours W H x y) ↔ 3 ≤ W ∧ 3 ≤ H.
Proof.
  intros HW HH Hx Hy. unfold neighbours.
  rewrite xL_cases, xR_cases, yT_cases, yB_cases by done. split.
  - intros Hnd. split.
    + destruct (decide (3 ≤ W)) as [|Hsmall]; [done|]. exfalso.
      assert (4 = 5)%nat; [|done].
      eapply (NoDup_lookup _ 4 5 _ Hnd); [reflexivity|].
      simpl. do 2 f_equal. split_eqb; lia.
    + destruct (decide (3 ≤ H)) as [|Hsmall]; [done|]. exfalso.
      assert (2 = 7)%nat; [|done].
      eapply (NoDup_lookup _ 2 7 _ Hnd); [reflexivity|].
      simpl. do 2 f_equal. split_eqb; lia.
  - intros [HW3 HH3].
    destruct (Z.eqb_spec x 0), (Z.eqb_spec x (W - 1)),
      (Z.eqb_spec y 0), (Z.eqb_spec y (H - 1)); try lia;
      repeat (apply NoDup_cons_2;
              [rewrite ?elem_of_cons, elem_of_nil;
               intros Hin; destruct_or!; try done; simplify_eq; lia|]);
      apply NoDup_nil_2.
Qed.

(** ** Only the cells equal to 1 matter *)

Lemma LiveNeighbourCount_normalise W H x y g :
  LiveNeighbourCount W H x y (normalise g) = LiveNeighbourCount W H x y g.
Proof.
  unfold LiveNeighbourCount. rewrite !index_normalise.
  repeat (match goal with
          | |- context [index g ?a ?b] =>
              destruct (index g a b); simpl; [rewrite ?bit_of_bit|done]
          end).
  done.
Qed.

Lemma next_at_normalise W H g x y :
  next_at W H (normalise g) x y = next_at W H g x y.
Proof.
  unfold next_at. rewrite LiveNeighbourCount_normalise, index_normalise.
  unfold next_cell.
  destruct (index g x y) as [c|]; simpl; [|done]. by destruct (c =? 1).
Qed.

Lemma next_generation_normalise W H g :
  next_generation W H (normalise g) = next_generation W H g.
Proof.
  unfold next_generation. apply tabulate_ext. intros x y _ _.
  apply next_at_normalise.
Qed.

Lemma rendering_ext W H g1 g2 :
  (∀ x y, next_at W H g1 x y = next_at W H g2 x y) →
  rendering W H g1 = rendering W H g2.
Proof.
  intros Heq. unfold rendering.
  induction (seqZ 0 W) as [|x xs IHx]; [done|].
  rewrite !bind_cons, IHx. f_equal. clear IHx.
  induction (seqZ 0 H) as [|y ys IHy]; [done|].
  rewrite !fmap_cons, IHy, Heq. done.
Qed.

(** X4: a generation step only looks at which cells equal 1: started from
    a current array with arbitrary byte values, it produces the same arrays
    and the same [DrawCell] calls as started from the array in which every
    value other than 1 is replaced by 0. *)
Theorem generation_reads_cells_as_one_or_not W H g gCopy s t :
  0 < W ≤ INT_MAX → 0 < H ≤ INT_MAX → g ≠ gCopy →
  dims W H (deref g s) → dims W H (deref gCopy s) → dims W H (deref gCopy t) →
  deref g t = normalise (deref g s) →
  ∃ s' t' calls,
    run (CalculateNextGeneration W H g gCopy) s = Some (tt, s') ∧
    run (CalculateNextGeneration W H g gCopy) t = Some (tt, t') ∧
    deref g s' = deref g t' ∧ deref gCopy s' = deref gCopy t' ∧
    st_surface s' = st_surface s ++ calls ∧
    st_surface t' = st_surface t ++ calls.
Proof.
  intros HW HH Hne Hg Hc Hct Heq.
  destruct (CalculateNextGeneration_run W H HW HH g gCopy s)
    as (s' & Hrun & Hg' & Hc' & Hsurf & _); [done..|].
  destruct (CalculateNextGeneration_run W H HW HH g gCopy t)
    as (t' & Hrunt & Hgt' & Hct' & Hsurft & _);
    [done|rewrite Heq; by apply normalise_dims|done|].
  rewrite Heq, next_generation_normalise in Hgt', Hct'.
  assert (rendering W H (deref g t) = rendering W H (deref g s)) as Hr.
  { rewrite Heq. apply rendering_ext. intros. apply next_at_normalise. }
  exists s', t', (rendering W H (deref g s)).
  split_and!; congruence.
Qed.

(** ** The torus has no special place *)

Lemma low_shift W x d :
  Spec.low W ((x + d) mod W) = (Spec.low W x + d) mod W.
Proof.
  unfold Spec.low.
  replace ((x + d) mod W - 1 + W) with ((x + d) mod W + (W - 1)) by lia.
  rewrite !Zplus_mod_idemp_l. f_equal. lia.
Qed.

Lemma high_shift W x d :
  Spec.high W ((x + d) mod W) = (Spec.high W x + d) mod W.
Proof.
  unfold Spec.high. rewrite !Zplus_mod_idemp_l. f_equal. lia.
Qed.

Lemma alive_at_wrapped W H g a b :
  0 < W → 0 < H → dims W H g →
  Spec.alive_at g (a mod W, b mod H) =
  if default 0 (index g (a mod W) (b mod H)) =? 1 then 1 else 0.
Proof.
  intros HW HH Hd. unfold Spec.alive_at. simpl.
  destruct (index_in_range W H g (a mod W) (b mod H)) as [c Ec];
    [done|by apply Z.mod_pos_bound..|].
  rewrite Ec. simpl. apply alive_bit.
Qed.

Lemma next_generation_shift W H dx dy g :
  0 < W ≤ INT_MAX → 0 < H ≤ INT_MAX → dims W H g →
  next_generation W H (shift W H dx dy g) =
  shift W H dx dy (next_generation W H g).
Proof.
  intros HW HH Hd. unfold shift at 1.
  rewrite next_generation_tabulate by done. unfold shift.
  apply tabulate_ext. intros x y Hx Hy.
  assert (0 ≤ (x + dx) mod W < W) as Hx' by (apply Z.mod_pos_bound; lia).
  assert (0 ≤ (y + dy) mod H < H) as Hy' by (apply Z.mod_pos_bound; lia).
  unfold next_generation. rewrite index_tabulate by done. simpl.
  destruct (index_in_range W H g ((x + dx) mod W) ((y + dy) mod H))
    as [c Ec]; [done..|].
  rewrite (next_at_formula W H HW HH g _ _ c) by done.
  rewrite Ec. simpl. f_equal.
  unfold Spec.live_neighbours, Spec.adjacent. cbn [foldr fst snd].
  rewrite !low_shift, !high_shift.
  by rewrite !alive_at_wrapped by (done || lia).
Qed.

(** X5: a generation step treats every place of the grid alike, the edges
    included: stepping the array seen from [(dx, dy)] around the torus gives
    the stepped array seen from [(dx, dy)]. *)
Theorem generation_commutes_with_shift W H dx dy g gCopy s t :
  0 < W ≤ INT_MAX → 0 < H ≤ INT_MAX → g ≠ gCopy →
  dims W H (deref g s) → dims W H (deref gCopy s) → dims W H (deref gCopy t) →
  deref g t = shift W H dx dy (deref g s) →
  ∃ s' t',
    run (CalculateNextGeneration W H g gCopy) s = Some (tt, s') ∧
    run (CalculateNextGeneration W H g gCopy) t = Some (tt, t') ∧
    deref g t' = shift W H dx dy (deref g s') ∧
    (∀ x y, 0 ≤ x < W → 0 ≤ y < H →
       index (deref g t') x y =
       index (deref g s') ((x + dx) mod W) ((y + dy) mod H)).
Proof.
  intros HW HH Hne Hg Hc Hct Heq.
  destruct (CalculateNextGeneration_run W H HW HH g gCopy s)
    as (s' & Hrun & Hg' & _); [done..|].
  destruct (CalculateNextGeneration_run W H HW HH g gCopy t)
    as (t' & Hrunt & Hgt' & _);
    [done|rewrite Heq; apply tabulate_dims|done|].
  rewrite Heq, next_generation_shift in Hgt' by done.
  exists s', t'. split_and!; [done|done|congruence|].
  intros x y Hx Hy. rewrite Hgt', Hg'. unfold shift.
  rewrite index_tabulate by done.
  destruct (index_in_range W H (next_generation W H (deref g s))
              ((x + dx) mod W) ((y + dy) mod H)) as [c Ec];
    [by apply next_generation_dims|apply Z.mod_pos_bound; lia..|].
  by rewrite Ec.
Qed.

(** ** Pixel memory *)

Lemma poke_Some pixels o v pixels' :
  poke pixels o v = Some pixels' ↔
  0 ≤ o < Z.of_nat (length pixels) ∧
  pixels' = <[Z.to_nat o := to_uchar v]> pixels.
Proof.
  unfold poke.
  destruct (Z.leb_spec 0 o), (Z.ltb_spec o (Z.of_nat (length pixels)));
    simpl; split; try (intros [? ?]; lia); try done.
  - intros [= <-]. split; [lia|done].
  - by intros [_ ->].
Qed.

Lemma poke_None pixels o v :
  poke pixels o v = None ↔ ¬ (0 ≤ o < Z.of_nat (length pixels)).
Proof.
  unfold poke.
  destruct (Z.leb_spec 0 o), (Z.ltb_spec o (Z.of_nat (length pixels)));
    simpl; split; try done; lia.
Qed.

Lemma poke_all_app l1 l2 v pixels :
  poke_all (l1 ++ l2) v pixels = poke_all l1 v pixels ≫= poke_all l2 v.
Proof.
  revert pixels. induction l1 as [|o l1 IH]; intros pixels; [done|].
  simpl. destruct (poke pixels o v) as [p|]; [apply IH|done].
Qed.

(** Writes at offsets inside the memory all succeed, keep its size, and
    change exactly the bytes at those offsets. *)
Lemma poke_all_inside offsets v pixels :
  Forall (λ o, 0 ≤ o < Z.of_nat (length pixels)) offsets →
  ∃ pixels',
    poke_all offsets v pixels = Some pixels' ∧
    length pixels' = length pixels ∧
    ∀ o, 0 ≤ o →
      pixels' !! Z.to_nat o =
      if decide (o ∈ offsets) then Some (to_uchar v)
      else pixels !! Z.to_nat o.
Proof.
  revert pixels. induction offsets as [|o1 rest IH]; intros pixels Hin.
  - exists pixels. split_and!; [done..|]. intros o _.
    case_decide as Ho; [by apply elem_of_nil in Ho|done].
  - apply Forall_cons in Hin as [Ho1 Hrest].
    destruct (IH (<[Z.to_nat o1 := to_uchar v]> pixels))
      as (p' & Hrun & Hlen & Hbytes); [by rewrite length_insert|].
    exists p'. split_and!.
    + simpl. by rewrite (proj2 (poke_Some pixels o1 v _) (conj Ho1 eq_refl)).
    + by rewrite Hlen, length_insert.
    + intros o Ho. rewrite Hbytes by done.
      destruct (decide (o ∈ rest)) as [Hr|Hr].
      * rewrite decide_True; [done|]. rewrite elem_of_cons. by right.
      * destruct (decide (o = o1)) as [->|Hne].
        -- rewrite decide_True by (rewrite elem_of_cons; by left).
           apply list_lookup_insert_eq. lia.
        -- rewrite decide_False by (rewrite elem_of_cons; tauto).
           apply list_lookup_insert_ne. lia.
Qed.

(** A first write outside the memory is undefined behaviour. *)
Lemma poke_all_first_outside o rest v pixels :
  ¬ (0 ≤ o < Z.of_nat (length pixels)) →
  poke_all (o :: rest) v pixels = None.
Proof. intros Ho. simpl. by rewrite (proj2 (poke_None pixels o v) Ho). Qed.

Lemma DrawCell_row_offsets cellSize pixel_ptr colour pixels :
  DrawCell_row cellSize pixel_ptr colour pixels =
  poke_all (row_offsets cellSize pixel_ptr) colour pixels.
Proof.
  unfold DrawCell_row, row_offsets. revert pixels.
  induction (seqZ 0 cellSize) as [|j js IH]; intros pixels; [done|].
  rewrite bind_cons, poke_all_app. simpl.
  destruct (poke pixels _ colour) as [p1|]; [simpl|done].
  destruct (poke p1 _ colour) as [p2|]; [simpl|done].
  destruct (poke p2 _ colour) as [p3|]; [simpl|done].
  apply IH.
Qed.

Lemma DrawCell_rows_offsets cellSize stride colour rows :
  ∀ pixel_ptr pixels,
    snd <$> for_each_on rows (λ (i : Z) (st : Z * list Z),
      pixels ← DrawCell_row cellSize st.1 colour st.2;
      Some (st.1 + stride, pixels)) (pixel_ptr, pixels) =
    poke_all (square_offsets cellSize stride rows pixel_ptr) colour pixels.
Proof.
  induction rows as [|i rows IH]; intros pixel_ptr pixels; [done|].
  simpl. rewrite poke_all_app, DrawCell_row_offsets.
  destruct (poke_all (row_offsets cellSize pixel_ptr) colour pixels)
    as [p1|]; [simpl|done].
  apply IH.
Qed.

Lemma DrawCell_pixels_offsets cellSize gridWidth x y colour pixels :
  DrawCell_pixels cellSize gridWidth x y colour pixels =
  poke_all
    (square_offsets cellSize (to_uint (screenWidth cellSize gridWidth * 4))
       (seqZ 0 cellSize)
       (to_uint ((y * cellSize * screenWidth cellSize gridWidth
                  + x * cellSize) * 4)))
    colour pixels.
Proof. unfold DrawCell_pixels. apply DrawCell_rows_offsets. Qed.

Lemma elem_of_row_offsets cellSize pixel_ptr o :
  o ∈ row_offsets cellSize pixel_ptr ↔
  ∃ j k, 0 ≤ j < cellSize ∧ 0 ≤ k < 3 ∧ o = pixel_ptr + to_uint (j * 4) + k.
Proof.
  unfold row_offsets. rewrite list_elem_of_bind. split.
  - intros (j & Ho & Hj%elem_of_seqZ_0). exists j.
    rewrite !elem_of_cons, elem_of_nil in Ho.
    destruct Ho as [-> | [-> | [-> | []]]];
      [exists 0|exists 1|exists 2]; split_and!; lia.
  - intros (j & k & Hj & Hk & ->). exists j.
    split; [|by apply elem_of_seqZ_0].
    rewrite !elem_of_cons.
    assert (k = 0 ∨ k = 1 ∨ k = 2) as [-> | [-> | ->]] by lia;
      [left; lia|right; left; lia|right; right; left; lia].
Qed.

Lemma elem_of_square_offsets cellSize stride rows :
  ∀ pixel_ptr o,
    o ∈ square_offsets cellSize stride rows pixel_ptr ↔
    ∃ i j k, 0 ≤ i < Z.of_nat (length rows) ∧ 0 ≤ j < cellSize ∧ 0 ≤ k < 3 ∧
             o = pixel_ptr + i * stride + to_uint (j * 4) + k.
Proof.
  induction rows as [|r rows IH]; intros pixel_ptr o.
  - simpl. split; [by intros ?%elem_of_nil|]. intros (i & _ & _ & ? & _). lia.
  - simpl. rewrite elem_of_app, elem_of_row_offsets, IH. split.
    + intros [(j & k & Hj & Hk & ->)|(i & j & k & Hi & Hj & Hk & ->)].
      * exists 0, j, k. split_and!; lia.
      * exists (i + 1), j, k. split_and!; lia.
    + intros (i & j & k & Hi & Hj & Hk & ->).
      destruct (decide (i = 0)) as [->|Hi0].
      * left. exists j, k. split_and!; lia.
      * right. exists (i - 1), j, k. split_and!; lia.
Qed.

(** ** The square of a cell *)

Lemma square_membership cs W x y px py k :
  0 < cs → 0 ≤ x < W → 0 ≤ px < cs * W → 0 ≤ k < 4 →
  (∃ i j k', 0 ≤ i < cs ∧ 0 ≤ j < cs ∧ 0 ≤ k' < 3 ∧
     pixel_offset (cs * W) px py k =
     (y * cs * (cs * W) + x * cs) * 4 + i * (cs * W * 4) + j * 4 + k') ↔
  px / cs = x ∧ py / cs = y ∧ k < 3.
Proof.
  intros Hcs Hx Hpx Hk. unfold pixel_offset. split.
  - intros (i & j & k' & Hi & Hj & Hk' & Heq).
    assert (k = k' ∧
            (cs * W) * py + px = (cs * W) * (y * cs + i) + (x * cs + j))
      as [-> Hsplit] by lia.
    apply Z.div_mod_unique in Hsplit as [Hpy Hpx']; [|nia..].
    split_and!; [|by (symmetry; apply (Z.div_unique py cs y i); lia)|lia].
    symmetry. apply (Z.div_unique px cs x j); lia.
  - intros (Hqx & Hqy & Hk3).
    exists (py mod cs), (px mod cs), k.
    pose proof (Z.mod_pos_bound py cs Hcs).
    pose proof (Z.mod_pos_bound px cs Hcs).
    split_and!; [lia..|].
    rewrite (Z.div_mod px cs), (Z.div_mod py cs) at 1 by lia.
    rewrite Hqx, Hqy. ring.
Qed.

Section Surface.

Variables cs W H : Z.
Variable pixels : list Z.
Hypothesis Hok : surface_ok cs W H pixels.

Lemma surface_facts :
  0 < cs ∧ 0 < W ∧ 0 < H ∧ 0 < cs * W ∧ 0 < cs * H ∧
  cs * W * (cs * H) * 4 < 2 ^ 32 ∧
  cs * W * 4 < 2 ^ 32 ∧ cs * 4 < 2 ^ 32 ∧
  Z.of_nat (length pixels) = cs * W * (cs * H) * 4.
Proof.
  destruct Hok as (Hcs & HW & HH & Hfit & Hlen). split_and!; try done; nia.
Qed.

Lemma DrawCell_offsets_inside x y :
  0 ≤ x < W → 0 ≤ y < H →
  to_uint (screenWidth cs W * 4) = cs * W * 4 ∧
  to_uint ((y * cs * screenWidth cs W + x * cs) * 4)
    = (y * cs * (cs * W) + x * cs) * 4 ∧
  ∀ i j k, 0 ≤ i < cs → 0 ≤ j < cs → 0 ≤ k < 3 →
    to_uint (j * 4) = j * 4 ∧
    0 ≤ (y * cs * (cs * W) + x * cs) * 4 + i * (cs * W * 4) + j * 4 + k
      < Z.of_nat (length pixels).
Proof.
  intros Hx Hy.
  destruct surface_facts as (Hcs & HW & HH & HSW & HSH & Hfit & Hrow & Hc & Hlen).
  unfold screenWidth. rewrite (to_uint_small (cs * W)) by nia.
  split_and!.
  - apply to_uint_small. lia.
  - apply to_uint_small.
    assert (y * cs * (cs * W) + x * cs < cs * W * (cs * H)); [|nia].
    assert (y * cs + 1 ≤ cs * H) by nia.
    assert (x * cs < cs * W) by nia. nia.
  - intros i j k Hi Hj Hk. split; [apply to_uint_small; lia|].
    rewrite Hlen.
    assert (y * cs + i + 1 ≤ cs * H) by nia.
    assert (x * cs + j + 1 ≤ cs * W) by nia.
    assert (0 ≤ (y * cs + i) * (cs * W)) by nia.
    assert ((y * cs + i) * (cs * W) + (cs * W) ≤ cs * H * (cs * W)) by nia.
    nia.
Qed.

End Surface.

(** The footprint of one [DrawCell] call. *)
Lemma DrawCell_square cs W H pixels x y colour :
  surface_ok cs W H pixels → 0 ≤ x < W → 0 ≤ y < H →
  ∃ pixels',
    DrawCell_pixels cs W x y colour pixels = Some pixels' ∧
    length pixels' = length pixels ∧
    ∀ px py k, 0 ≤ px < cs * W → 0 ≤ py < cs * H → 0 ≤ k < 4 →
      pixels' !! Z.to_nat (pixel_offset (cs * W) px py k) =
      if decide (px / cs = x ∧ py / cs = y ∧ k < 3)
      then Some (to_uchar colour)
      else pixels !! Z.to_nat (pixel_offset (cs * W) px py k).
Proof.
  intros Hok Hx Hy.
  destruct (surface_facts cs W H pixels Hok)
    as (Hcs & HW & HH & HSW & HSH & Hfit & Hrow & Hc & Hlen).
  destruct (DrawCell_offsets_inside cs W H pixels Hok x y Hx Hy)
    as (Hstride & Hbase & Hin).
  rewrite DrawCell_pixels_offsets, Hstride, Hbase.
  destruct (poke_all_inside
    (square_offsets cs (cs * W * 4) (seqZ 0 cs)
       ((y * cs * (cs * W) + x * cs) * 4)) colour pixels)
    as (pixels' & Hrun & Hlen' & Hbytes).
  { apply Forall_forall. intros o Ho.
    apply elem_of_square_offsets in Ho as (i & j & k & Hi & Hj & Hk & ->).
    rewrite length_seqZ in Hi.
    destruct (Hin i j k) as [-> ?]; [lia..|done]. }
  exists pixels'. split_and!; [done..|].
  intros px py k Hpx Hpy Hk.
  assert (0 ≤ pixel_offset (cs * W) px py k) as Hoff
    by (unfold pixel_offset; nia).
  rewrite Hbytes by done.
  destruct (decide (px / cs = x ∧ py / cs = y ∧ k < 3)) as [Hsq|Hsq].
  - rewrite decide_True; [done|].
    apply (square_membership cs W x y px py k) in Hsq
      as (i & j & k' & Hi & Hj & Hk' & Heq); [|done..].
    apply elem_of_square_offsets. exists i, j, k'.
    rewrite length_seqZ. destruct (Hin i j k') as [-> _]; [done..|].
    split_and!; try done; lia.
  - rewrite decide_False; [done|]. intros Ho. apply Hsq.
    apply elem_of_square_offsets in Ho as (i & j & k' & Hi & Hj & Hk' & Heq).
    rewrite length_seqZ in Hi.
    destruct (Hin i j k') as [Hj4 _]; [lia..|]. rewrite Hj4 in Heq.
    apply (square_membership cs W x y px py k); [done..|].
    exists i, j, k'. split_and!; try done; lia.
Qed.

(** X6: on a surface that fits the window, [DrawCell] for a cell inside
    the grid returns, keeps the size of the pixel memory, sets the first
    three bytes of every pixel of the [cellSize] by [cellSize] square of
    that cell to the colour (as a byte), and changes no other byte: not the
    fourth byte of those pixels, and no pixel of another cell. *)
Theorem DrawCell_paints_one_square cs W H pixels x y colour :
  surface_ok cs W H pixels → 0 ≤ x < W → 0 ≤ y < H →
  ∃ pixels',
    DrawCell_pixels cs W x y colour pixels = Some pixels' ∧
    length pixels' = length pixels ∧
    ∀ px py k, 0 ≤ px < cs * W → 0 ≤ py < cs * H → 0 ≤ k < 4 →
      pixels' !! Z.to_nat (pixel_offset (cs * W) px py k) =
      if decide (px / cs = x ∧ py / cs = y ∧ k < 3)
      then Some (to_uchar colour)
      else pixels !! Z.to_nat (pixel_offset (cs * W) px py k).
Proof. apply DrawCell_square. Qed.

(** X7: [DrawCell] checks nothing itself: for a row [y] at or below the
    bottom of the grid (the offset still fitting an [unsigned int]) its
    first write lies past the end of the pixel memory. *)
Theorem DrawCell_below_grid_is_undefined cs W H pixels x y colour :
  surface_ok cs W H pixels → 0 ≤ x → H ≤ y →
  (y * cs * (cs * W) + x * cs) * 4 < 2 ^ 32 →
  DrawCell_pixels cs W x y colour pixels = None.
Proof.
  intros Hok Hx Hy Hfits.
  destruct (surface_facts cs W H pixels Hok)
    as (Hcs & HW & HH & HSW & HSH & Hfit & Hrow & Hc & Hlen).
  rewrite DrawCell_pixels_offsets. unfold screenWidth.
  rewrite (to_uint_small (cs * W)) by nia.
  rewrite (to_uint_small ((y * cs * (cs * W) + x * cs) * 4)) by nia.
  rewrite (seqZ_cons 0 cs) by done. simpl.
  unfold row_offsets. rewrite (seqZ_cons 0 cs) by done.
  rewrite bind_cons. simpl.
  rewrite (proj2 (poke_None pixels _ colour)); [done|].
  rewrite Hlen. unfold to_uint. rewrite Z.mod_0_l by done.
  assert (cs * H * (cs * W) ≤ y * cs * (cs * W)) by nia. nia.
Qed.

(** ** The [DrawCell] calls of [InitGrid] *)

Section SeedingCalls.

Variables W H P : Z.
Variable libc_rand : Z → nat → Z.
Hypothesis W_extent : 0 < W ≤ INT_MAX.
Hypothesis H_extent : 0 < H ≤ INT_MAX.

Lemma init_column_calls g i s :
  dims W H (deref g s) → 0 ≤ i < W →
  ∃ s',
    run (for_upto H (λ j, init_cell P libc_rand g i j)) s = Some (tt, s') ∧
    st_surface s' = st_surface s ++
      ((λ j, (to_uint i, to_uint j,
              to_uint (colour_of (init_value P
                (libc_rand (st_seed s) (st_rand_calls s + Z.to_nat j))))))
         <$> seqZ 0 H).
Proof.
  intros Hg Hi.
  destruct (for_upto_invariant (λ done s1,
    dims W H (deref g s1) ∧
    st_seed s1 = st_seed s ∧
    st_rand_calls s1 = (st_rand_calls s + length done)%nat ∧
    st_surface s1 = st_surface s ++
      ((λ j, (to_uint i, to_uint j,
              to_uint (colour_of (init_value P
                (libc_rand (st_seed s) (st_rand_calls s + Z.to_nat j))))))
         <$> done))
    (λ j, init_cell P libc_rand g i j) H s) as (s' & Hrun & Hpost).
  - split_and!; [done|done|simpl; lia|]. simpl. by rewrite app_nil_r.
  - intros pre j s1 Hj -> (Hg1 & Hseed & Hcalls & Hsurf).
    destruct (init_cell_run W H P libc_rand g i j s1) as (a & Ha & Hrun);
      [done..|].
    rewrite Hseed, Hcalls, length_seqZ in Ha, Hrun.
    eexists. split; [exact Hrun|].
    rewrite !deref_paint, deref_update_eq. split_and!.
    + by eapply assign_dims.
    + by destruct g.
    + rewrite length_seqZ in Hcalls |- *. destruct g; simpl; lia.
    + rewrite seqZ_snoc, fmap_app, app_assoc, <- Hsurf by lia.
      by destruct g.
  - exists s'. by destruct Hpost as (_ & _ & _ & Hsurf).
Qed.

Lemma InitGrid_calls wall_clock g s :
  dims W H (deref g s) →
  ∃ s',
    run (InitGrid W H P libc_rand wall_clock g) s = Some (tt, s') ∧
    deref g s' = initial_generation W H P libc_rand (to_uint wall_clock) ∧
    (∀ b, b ≠ g → deref b s' = deref b s) ∧
    st_surface s' = st_surface s ++
      frame_calls W H (λ i j,
        init_value P (libc_rand (to_uint wall_clock) (Z.to_nat (i * H + j)))).
Proof.
  intros Hg.
  destruct (InitGrid_run W H P libc_rand W_extent H_extent wall_clock g s Hg)
    as (s' & Hrun & Hg' & Hoth & _).
  exists s'. split_and!; [done..|].
  revert Hrun. unfold InitGrid. cbv zeta.
  set (seed := to_uint wall_clock).
  set (s0 := mkState (st_grid s) (st_gridCopy s) (st_surface s) seed 0%nat).
  rewrite (run_bind _ _ s tt s0) by reflexivity.
  assert (∀ b, deref b s0 = deref b s) as Hs0 by (by intros []).
  destruct (for_upto_invariant (λ done s1,
    dims W H (deref g s1) ∧
    st_seed s1 = seed ∧
    st_rand_calls s1 = (length done * Z.to_nat H)%nat ∧
    st_surface s1 = st_surface s ++
      (done ≫= λ i,
         (λ j, (to_uint i, to_uint j,
                to_uint (colour_of (init_value P
                  (libc_rand seed (Z.to_nat (i * H + j)))))))
           <$> seqZ 0 H))
    (λ i, for_upto H (λ j, init_cell P libc_rand g i j)) W s0)
    as (s1 & Hrun1 & _ & _ & _ & Hsurf).
  - split_and!; [by rewrite Hs0|done|done|]. simpl. by rewrite app_nil_r.
  - intros pre i s1 Hi -> (Hg1 & Hseed & Hcalls & Hsurf).
    destruct (init_column_run W H P libc_rand g i s1)
      as (s2 & Hrun2 & Hg2 & _ & _ & _ & Hseed2 & Hcalls2); [done..|].
    destruct (init_column_calls g i s1) as (s2' & Hrun2' & Hsurf2); [done..|].
    rewrite Hrun2 in Hrun2'. injection Hrun2' as <-.
    rewrite length_seqZ in Hcalls.
    exists s2. split; [done|]. split_and!; [done|congruence| |].
    + rewrite Hcalls2, Hcalls, length_seqZ.
      rewrite Z2Nat.inj_add by lia. simpl. lia.
    + rewrite Hsurf2, Hsurf, seqZ_snoc, bind_app, bind_singleton by lia.
      rewrite <- app_assoc. do 2 f_equal.
      apply Forall_fmap_ext, Forall_forall. intros j Hj%elem_of_seqZ_0.
      rewrite Hseed, Hcalls. do 4 f_equal.
      rewrite Z2Nat.inj_add, Z2Nat.inj_mul by nia. done.
  - intros Hrun. rewrite Hrun1 in Hrun. injection Hrun as <-.
    by rewrite Hsurf.
Qed.

End SeedingCalls.

(** ** What a log of [DrawCell] calls leaves on the surface *)

Lemma replay_app cs W calls1 calls2 pixels :
  replay cs W (calls1 ++ calls2) pixels =
  replay cs W calls1 pixels ≫= replay cs W calls2.
Proof.
  revert pixels. induction calls1 as [|[[x y] c] rest IH]; intros pixels;
    [done|].
  simpl. destruct (DrawCell_pixels cs W x y c pixels); [apply IH|done].
Qed.

Lemma surface_ok_length cs W H pixels pixels' :
  surface_ok cs W H pixels → length pixels' = length pixels →
  surface_ok cs W H pixels'.
Proof. unfold surface_ok. intros (?&?&?&?&?) ->. done. Qed.

Lemma replay_paints cs W H (F : Z → Z → Z) calls :
  Forall (λ c : Z * Z * Z,
    0 ≤ c.1.1 < W ∧ 0 ≤ c.1.2 < H ∧ to_uchar c.2 = F c.1.1 c.1.2) calls →
  ∀ pixels, surface_ok cs W H pixels →
  ∃ pixels',
    replay cs W calls pixels = Some pixels' ∧
    length pixels' = length pixels ∧
    ∀ px py k, 0 ≤ px < cs * W → 0 ≤ py < cs * H → 0 ≤ k < 4 →
      pixels' !! Z.to_nat (pixel_offset (cs * W) px py k) =
      if decide (k < 3 ∧ (px / cs, py / cs) ∈ fst <$> calls)
      then Some (F (px / cs) (py / cs))
      else pixels !! Z.to_nat (pixel_offset (cs * W) px py k).
Proof.
  induction 1 as [|[[x y] c] rest (Hx & Hy & Hc) _ IH]; intros pixels Hok.
  - exists pixels. split_and!; [done..|]. intros px py k _ _ _.
    rewrite decide_False; [done|]. intros [_ Hin]. by apply elem_of_nil in Hin.
  - simpl in Hx, Hy, Hc.
    destruct (DrawCell_square cs W H pixels x y c Hok Hx Hy)
      as (p1 & Hdraw & Hlen1 & Hbytes1).
    destruct (IH p1) as (p' & Hrun & Hlen' & Hbytes');
      [by eapply surface_ok_length|].
    exists p'. split_and!.
    + simpl. by rewrite Hdraw.
    + congruence.
    + intros px py k Hpx Hpy Hk. rewrite Hbytes', Hbytes1 by done.
      assert ((px / cs, py / cs) ∈ fst <$> (x, y, c) :: rest ↔
              (px / cs = x ∧ py / cs = y) ∨ (px / cs, py / cs) ∈ fst <$> rest)
        as Hcons.
      { rewrite fmap_cons, elem_of_cons. simpl. split.
        - intros [[= -> ->]|?]; auto.
        - intros [[-> ->]|?]; auto. }
      destruct (decide (k < 3 ∧ (px / cs, py / cs) ∈ fst <$> rest))
        as [[Hk3 Hin]|Hnot].
      * rewrite decide_True; [done|]. split; [done|]. apply Hcons. auto.
      * destruct (decide (px / cs = x ∧ py / cs = y ∧ k < 3))
          as [(Hqx & Hqy & Hk3)|Hnot1].
        -- rewrite decide_True by (split; [done|]; apply Hcons; auto).
           by rewrite Hc, Hqx, Hqy.
        -- rewrite decide_False; [done|].
           intros [Hk3 [[? ?]|Hin]%Hcons]; [apply Hnot1|apply Hnot]; auto.
Qed.

Lemma to_uchar_colour_of v : to_uchar (to_uint (colour_of v)) = colour_of v.
Proof. unfold colour_of. by destruct (v =? 1). Qed.

Lemma elem_of_frame_calls W H v x y :
  0 ≤ x < W → 0 ≤ y < H → W < 2 ^ 32 → H < 2 ^ 32 →
  (x, y) ∈ fst <$> frame_calls W H v.
Proof.
  intros Hx Hy HW HH. apply list_elem_of_fmap.
  exists (x, y, to_uint (colour_of (v x y))). split; [done|].
  unfold frame_calls. apply list_elem_of_bind. exists x.
  split; [|by apply elem_of_seqZ_0].
  apply list_elem_of_fmap. exists y. split; [|by apply elem_of_seqZ_0].
  by rewrite (to_uint_small x), (to_uint_small y) by lia.
Qed.

Lemma frame_calls_inside W H v :
  W < 2 ^ 32 → H < 2 ^ 32 →
  Forall (λ c : Z * Z * Z,
    0 ≤ c.1.1 < W ∧ 0 ≤ c.1.2 < H ∧
    to_uchar c.2 = colour_of (v c.1.1 c.1.2))
    (frame_calls W H v).
Proof.
  intros HW HH. apply Forall_forall. intros c Hc.
  unfold frame_calls in Hc.
  apply list_elem_of_bind in Hc as (x & Hc & Hx%elem_of_seqZ_0).
  apply list_elem_of_fmap in Hc as (y & -> & Hy%elem_of_seqZ_0). simpl.
  rewrite (to_uint_small x), (to_uint_small y) by lia. split_and!; [lia..|].
  apply to_uchar_colour_of.
Qed.

(** Drawing every cell once leaves a picture of the whole array, whatever
    the surface held before. *)
Lemma replay_frame_calls cs W H v pixels :
  surface_ok cs W H pixels →
  ∃ pixels',
    replay cs W (frame_calls W H v) pixels = Some pixels' ∧
    surface_ok cs W H pixels' ∧
    shows cs W H pixels' (tabulate W H v) ∧
    same_fourth_bytes cs W H pixels pixels'.
Proof.
  intros Hok.
  destruct (surface_facts cs W H pixels Hok)
    as (Hcs & HW & HH & HSW & HSH & Hfit & Hrow & Hc & Hlen).
  assert (W < 2 ^ 32 ∧ H < 2 ^ 32) as [HW32 HH32] by nia.
  destruct (replay_paints cs W H (λ x y, colour_of (v x y))
              (frame_calls W H v) (frame_calls_inside W H v HW32 HH32)
              pixels Hok) as (p' & Hrun & Hlen' & Hbytes).
  exists p'. split_and!; [done|by eapply surface_ok_length| |].
  - intros px py k Hpx Hpy Hk. rewrite Hbytes by lia.
    assert (0 ≤ px / cs < W ∧ 0 ≤ py / cs < H) as [Hqx Hqy].
    { split; (split; [apply Z.div_pos; lia
                     |apply Z.div_lt_upper_bound; lia]). }
    rewrite decide_True
      by (split; [lia|by apply elem_of_frame_calls]).
    by rewrite index_tabulate.
  - intros px py Hpx Hpy. rewrite Hbytes by lia.
    rewrite decide_False; [done|lia].
Qed.

Lemma same_fourth_bytes_trans cs W H p1 p2 p3 :
  same_fourth_bytes cs W H p1 p2 → same_fourth_bytes cs W H p2 p3 →
  same_fourth_bytes cs W H p1 p3.
Proof. intros H12 H23 px py Hpx Hpy. by rewrite H23, H12. Qed.

(** X8: the [DrawCell] calls of one generation step, applied to a surface
    that fits the window, whatever it showed before, all stay inside the
    pixel memory and leave a picture of the new generation: every pixel of
    the square of a live cell is white, every pixel of the square of a dead
    cell is black, and the fourth byte of every pixel is as before. *)
Theorem generation_is_displayed cs W H g gCopy s pixels :
  0 < W ≤ INT_MAX → 0 < H ≤ INT_MAX → g ≠ gCopy →
  dims W H (deref g s) → dims W H (deref gCopy s) →
  surface_ok cs W H pixels →
  ∃ s' calls pixels',
    run (CalculateNextGeneration W H g gCopy) s = Some (tt, s') ∧
    st_surface s' = st_surface s ++ calls ∧
    replay cs W calls pixels = Some pixels' ∧
    surface_ok cs W H pixels' ∧
    shows cs W H pixels' (deref g s') ∧
    same_fourth_bytes cs W H pixels pixels'.
Proof.
  intros HW HH Hne Hg Hc Hok.
  destruct (CalculateNextGeneration_run W H HW HH g gCopy s)
    as (s' & Hrun & Hg' & _ & Hsurf & _); [done..|].
  destruct (replay_frame_calls cs W H (next_at W H (deref g s)) pixels Hok)
    as (p' & Hreplay & Hok' & Hshows & Hfourth).
  exists s', (rendering W H (deref g s)), p'. rewrite Hg'.
  split_and!; done.
Qed.

Lemma generation_frame cs W H s pixels :
  0 < W ≤ INT_MAX → 0 < H ≤ INT_MAX →
  dims W H (st_grid s) → dims W H (st_gridCopy s) →
  surface_ok cs W H pixels →
  ∃ s' calls pixels',
    run (CalculateNextGeneration W H grid gridCopy) s = Some (tt, s') ∧
    st_surface s' = st_surface s ++ calls ∧
    replay cs W calls pixels = Some pixels' ∧
    surface_ok cs W H pixels' ∧
    shows cs W H pixels' (st_grid s') ∧
    same_fourth_bytes cs W H pixels pixels' ∧
    dims W H (st_grid s') ∧ dims W H (st_gridCopy s').
Proof.
  intros HW HH Hg Hc Hok.
  destruct (CalculateNextGeneration_run W H HW HH grid gridCopy s)
    as (s' & Hrun & Hg' & Hc' & Hsurf & _); [done..|].
  simpl in Hg', Hc'.
  destruct (replay_frame_calls cs W H (next_at W H (st_grid s)) pixels Hok)
    as (p' & Hreplay & Hok' & Hshows & Hfourth).
  exists s', (rendering W H (st_grid s)), p'. rewrite Hg', Hc'.
  split_and!; try done; apply tabulate_dims.
Qed.

Lemma frames_displayed cs W H n :
  0 < W ≤ INT_MAX → 0 < H ≤ INT_MAX →
  ∀ s pixels,
    dims W H (st_grid s) → dims W H (st_gridCopy s) →
    surface_ok cs W H pixels → shows cs W H pixels (st_grid s) →
    ∃ s' calls pixels',
      run (frames W H n) s = Some (tt, s') ∧
      st_surface s' = st_surface s ++ calls ∧
      replay cs W calls pixels = Some pixels' ∧
      shows cs W H pixels' (st_grid s') ∧
      same_fourth_bytes cs W H pixels pixels'.
Proof.
  intros HW HH. induction n as [|n IH]; intros s pixels Hg Hc Hok Hshows.
  - exists s, [], pixels. rewrite app_nil_r. split_and!; done.
  - destruct (generation_frame cs W H s pixels HW HH Hg Hc Hok)
      as (s1 & calls1 & p1 & Hrun1 & Hsurf1 & Hrep1 & Hok1 & Hsh1 & Hf1
          & Hg1 & Hc1).
    destruct (IH s1 p1 Hg1 Hc1 Hok1 Hsh1)
      as (s' & calls & p' & Hrun & Hsurf & Hrep & Hsh & Hf).
    exists s', (calls1 ++ calls), p'. split_and!.
    + simpl. by erewrite run_bind.
    + by rewrite Hsurf, Hsurf1, app_assoc.
    + by rewrite replay_app, Hrep1.
    + done.
    + by eapply same_fourth_bytes_trans.
Qed.

(** X9: the program as [main] runs it, seeding [grid] and then computing
    frames: after any number of frames the [DrawCell] calls made so far,
    applied to the window surface as it was at the start, have all stayed
    inside the pixel memory and the surface shows the current generation,
    with the fourth byte of every pixel untouched. *)
Theorem window_shows_current_generation cs W H P libc_rand wall_clock n s
    pixels :
  0 < W ≤ INT_MAX → 0 < H ≤ INT_MAX →
  dims W H (st_grid s) → dims W H (st_gridCopy s) →
  surface_ok cs W H pixels →
  ∃ s' calls pixels',
    run (InitGrid W H P libc_rand wall_clock grid ;; frames W H n) s
      = Some (tt, s') ∧
    st_surface s' = st_surface s ++ calls ∧
    replay cs W calls pixels = Some pixels' ∧
    shows cs W H pixels' (st_grid s') ∧
    same_fourth_bytes cs W H pixels pixels'.
Proof.
  intros HW HH Hg Hc Hok.
  destruct (InitGrid_calls W H P libc_rand HW HH wall_clock grid s Hg)
    as (s0 & Hrun0 & Hg0 & Hoth0 & Hsurf0).
  simpl in Hg0. specialize (Hoth0 gridCopy ltac:(done)). simpl in Hoth0.
  destruct (replay_frame_calls cs W H
              (λ i j, init_value P
                 (libc_rand (to_uint wall_clock) (Z.to_nat (i * H + j))))
              pixels Hok)
    as (p0 & Hrep0 & Hok0 & Hsh0 & Hf0).
  destruct (frames_displayed cs W H n HW HH s0 p0)
    as (s' & calls & p' & Hrun & Hsurf & Hrep & Hsh & Hf);
    [rewrite Hg0; apply tabulate_dims|by rewrite Hoth0|done
    |by rewrite Hg0|].
  eexists s', (_ ++ calls), p'. split_and!.
  - by erewrite run_bind.
  - by rewrite Hsurf, Hsurf0, app_assoc.
  - by rewrite replay_app, Hrep0.
  - done.
  - by eapply same_fourth_bytes_trans.
Qed.

(** ** The run loop and [main] *)

Lemma frames_iterate W H n :
  0 < W ≤ INT_MAX → 0 < H ≤ INT_MAX →
  ∀ s, dims W H (st_grid s) → dims W H (st_gridCopy s) →
  ∃ s',
    run (frames W H n) s = Some (tt, s') ∧
    st_grid s' = Nat.iter n (next_generation W H) (st_grid s) ∧
    (0 < n → st_gridCopy s' = st_grid s')%nat ∧
    dims W H (st_grid s') ∧ dims W H (st_gridCopy s') ∧
    st_seed s' = st_seed s ∧ st_rand_calls s' = st_rand_calls s.
Proof.
  intros HW HH. induction n as [|n IH]; intros s Hg Hc.
  - exists s. split_and!; [done..|lia|done|done|done|done].
  - destruct (CalculateNextGeneration_run W H HW HH grid gridCopy s)
      as (s1 & Hrun1 & Hg1 & Hc1 & _ & Hseed1 & Hcalls1); [done..|].
    simpl in Hg1, Hc1.
    destruct (IH s1) as (s' & Hrun & Hg' & Hc' & Hdg & Hdc & Hseed & Hcalls);
      [rewrite Hg1; apply tabulate_dims|rewrite Hc1; apply tabulate_dims|].
    exists s'. split_and!; [|  | |done|done|congruence|congruence].
    + simpl. by erewrite run_bind.
    + by rewrite Hg', Hg1, Nat.iter_succ_r.
    + intros _. destruct n as [|n]; [|apply Hc'; lia].
      injection Hrun as <-. congruence.
Qed.

Lemma frames_add W H m n s :
  run (frames W H (m + n)) s = run (frames W H m ;; frames W H n) s.
Proof.
  revert s. induction m as [|m IH]; intros s; [done|].
  simpl. unfold run, mbind, M_bind in *.
  destruct (CalculateNextGeneration W H grid gridCopy s) as [[[] s1]|];
    [apply IH|done].
Qed.

(** X10: any number of frames of the run loop returns; the current array
    is then the array the loop started from advanced by that many
    generations, the working array is equal to it once a frame has run, and
    the random generator has not been used.  Running [m + n] frames is
    running [m] frames and then [n]. *)
Theorem frames_compute_iterates W H m n s :
  0 < W ≤ INT_MAX → 0 < H ≤ INT_MAX →
  dims W H (st_grid s) → dims W H (st_gridCopy s) →
  run (frames W H (m + n)) s = run (frames W H m ;; frames W H n) s ∧
  ∃ s',
    run (frames W H n) s = Some (tt, s') ∧
    st_grid s' = Nat.iter n (next_generation W H) (st_grid s) ∧
    (0 < n → st_gridCopy s' = st_grid s')%nat ∧
    st_seed s' = st_seed s ∧ st_rand_calls s' = st_rand_calls s.
Proof.
  intros HW HH Hg Hc. split; [apply frames_add|].
  destruct (frames_iterate W H n HW HH s Hg Hc)
    as (s' & Hrun & Hg' & Hc' & _ & _ & Hseed & Hcalls).
  by exists s'.
Qed.

Lemma poll_spec events quit :
  poll events quit = quit || bool_decide (SDL_QUIT ∈ events).
Proof.
  revert quit. induction events as [|e rest IH]; intros quit.
  - cbn [poll]. rewrite bool_decide_eq_false_2 by apply not_elem_of_nil.
    by rewrite orb_false_r.
  - cbn [poll]. rewrite IH. destruct e.
    + rewrite (bool_decide_eq_true_2 (SDL_QUIT ∈ SDL_QUIT :: rest))
        by (rewrite elem_of_cons; by left).
      by rewrite orb_true_r.
    + f_equal. apply bool_decide_ext. rewrite elem_of_cons.
      split; [by right | by intros [?|?]].
Qed.

Lemma run_loop_until_quit W H before events after :
  0 < W ≤ INT_MAX → 0 < H ≤ INT_MAX →
  Forall (λ evs, SDL_QUIT ∉ evs) before → SDL_QUIT ∈ events →
  ∀ s, dims W H (st_grid s) → dims W H (st_gridCopy s) →
  ∃ s',
    run (run_loop W H (before ++ events :: after) false) s
      = Some (Returned 0, s') ∧
    run (frames W H (S (length before))) s = Some (tt, s').
Proof.
  intros HW HH Hbefore Hquit.
  induction Hbefore as [|evs before Hevs _ IH]; intros s Hg Hc.
  - destruct (CalculateNextGeneration_run W H HW HH grid gridCopy s)
      as (s1 & Hrun1 & _); [done..|].
    exists s1. split.
    + simpl. erewrite run_bind by exact Hrun1.
      rewrite poll_spec, bool_decide_eq_true_2 by done. simpl.
      by destruct after.
    + simpl. by erewrite run_bind by exact Hrun1.
  - destruct (CalculateNextGeneration_run W H HW HH grid gridCopy s)
      as (s1 & Hrun1 & Hg1 & Hc1 & _); [done..|].
    simpl in Hg1, Hc1.
    destruct (IH s1) as (s' & Hloop & Hframes);
      [rewrite Hg1; apply tabulate_dims|rewrite Hc1; apply tabulate_dims|].
    exists s'. split.
    + simpl. erewrite run_bind by exact Hrun1.
      by rewrite poll_spec, bool_decide_eq_false_2 by done.
    + change (frames W H (S (length (evs :: before))))
        with (CalculateNextGeneration W H grid gridCopy ;;
              frames W H (S (length before))).
      by erewrite run_bind by exact Hrun1.
Qed.

Lemma frames_calls W H n :
  0 < W ≤ INT_MAX → 0 < H ≤ INT_MAX →
  ∀ s, dims W H (st_grid s) → dims W H (st_gridCopy s) →
  ∃ s' calls,
    run (frames W H n) s = Some (tt, s') ∧
    st_surface s' = st_surface s ++ calls.
Proof.
  intros HW HH. induction n as [|n IH]; intros s Hg Hc.
  - exists s, []. by rewrite app_nil_r.
  - destruct (CalculateNextGeneration_run W H HW HH grid gridCopy s)
      as (s1 & Hrun1 & Hg1 & Hc1 & Hsurf1 & _); [done..|].
    simpl in Hg1, Hc1.
    destruct (IH s1) as (s' & calls & Hrun & Hsurf);
      [rewrite Hg1; apply tabulate_dims|rewrite Hc1; apply tabulate_dims|].
    exists s', (rendering W H (st_grid s) ++ calls). split.
    + simpl. by erewrite run_bind.
    + by rewrite Hsurf, Hsurf1, app_assoc.
Qed.

Lemma frame_calls_nonempty W H v : 0 < W → 0 < H → frame_calls W H v ≠ [].
Proof.
  intros HW HH. unfold frame_calls.
  rewrite (seqZ_cons 0 W), bind_cons, (seqZ_cons 0 H) by done.
  by rewrite fmap_cons.
Qed.

Lemma through_surface_run {A} cs W surface (m : M A) s a s' calls :
  run m s = Some (a, s') → st_surface s' = st_surface s ++ calls →
  run (through_surface cs W surface m) s =
  match calls with
  | [] => Some (a, s')
  | _ :: _ => pixels ← surface; _ ← replay cs W calls pixels; Some (a, s')
  end.
Proof.
  unfold run, through_surface. intros -> Hsurf. simpl.
  rewrite Hsurf, drop_app_length. by destruct calls.
Qed.

(** Seeding [grid] and running the loop until the quit event, without the
    surface: the state it ends in, and the calls it has logged. *)
Lemma main_body_run W H P libc_rand wall_clock before events after s :
  0 < W ≤ INT_MAX → 0 < H ≤ INT_MAX →
  dims W H (st_grid s) → dims W H (st_gridCopy s) →
  Forall (λ evs, SDL_QUIT ∉ evs) before → SDL_QUIT ∈ events →
  ∃ s' calls,
    run (InitGrid W H P libc_rand wall_clock grid ;;
         run_loop W H (before ++ events :: after) false) s
      = Some (Returned 0, s') ∧
    run (InitGrid W H P libc_rand wall_clock grid ;;
         frames W H (S (length before))) s = Some (tt, s') ∧
    st_surface s' = st_surface s ++ calls ∧ calls ≠ [] ∧
    st_grid s' =
      Nat.iter (S (length before)) (next_generation W H)
        (initial_generation W H P libc_rand (to_uint wall_clock)) ∧
    st_gridCopy s' = st_grid s' ∧
    st_seed s' = to_uint wall_clock ∧
    st_rand_calls s' = Z.to_nat (W * H).
Proof.
  intros HW HH Hg Hc Hbefore Hquit.
  destruct (InitGrid_run W H P libc_rand HW HH wall_clock grid s Hg)
    as (s0 & Hrun0 & Hg0 & Hoth0 & Hseed0 & Hcalls0).
  destruct (InitGrid_calls W H P libc_rand HW HH wall_clock grid s Hg)
    as (s0' & Hrun0' & _ & _ & Hsurf0).
  rewrite Hrun0 in Hrun0'. injection Hrun0' as <-.
  simpl in Hg0. specialize (Hoth0 gridCopy ltac:(done)). simpl in Hoth0.
  assert (dims W H (st_grid s0)) as Hdg
    by (rewrite Hg0; apply tabulate_dims).
  assert (dims W H (st_gridCopy s0)) as Hdc by (by rewrite Hoth0).
  destruct (run_loop_until_quit W H before events after HW HH Hbefore Hquit
              s0 Hdg Hdc) as (s' & Hloop & Hframes).
  destruct (frames_iterate W H (S (length before)) HW HH s0 Hdg Hdc)
    as (s'' & Hframes' & Hg' & Hc' & _ & _ & Hseed & Hcalls).
  rewrite Hframes in Hframes'. injection Hframes' as <-.
  destruct (frames_calls W H (S (length before)) HW HH s0 Hdg Hdc)
    as (s'' & calls & Hframes' & Hsurf).
  rewrite Hframes in Hframes'. injection Hframes' as <-.
  eexists s', (_ ++ calls). split_and!.
  - by erewrite run_bind by exact Hrun0.
  - by erewrite run_bind by exact Hrun0.
  - by rewrite Hsurf, Hsurf0, app_assoc.
  - intros [Hnil _]%app_eq_nil. revert Hnil.
    apply frame_calls_nonempty; lia.
  - by rewrite Hg', Hg0.
  - apply Hc'. lia.
  - congruence.
  - congruence.
Qed.

Lemma seeded_frames_displayed cs W H P libc_rand wall_clock n s pixels :
  0 < W ≤ INT_MAX → 0 < H ≤ INT_MAX →
  dims W H (st_grid s) → dims W H (st_gridCopy s) →
  surface_ok cs W H pixels →
  ∃ s' calls pixels',
    run (InitGrid W H P libc_rand wall_clock grid ;; frames W H n) s
      = Some (tt, s') ∧
    st_surface s' = st_surface s ++ calls ∧
    replay cs W calls pixels = Some pixels' ∧
    shows cs W H pixels' (st_grid s') ∧
    same_fourth_bytes cs W H pixels pixels'.
Proof.
  intros HW HH Hg Hc Hok.
  destruct (InitGrid_calls W H P libc_rand HW HH wall_clock grid s Hg)
    as (s0 & Hrun0 & Hg0 & Hoth0 & Hsurf0).
  simpl in Hg0. specialize (Hoth0 gridCopy ltac:(done)). simpl in Hoth0.
  destruct (replay_frame_calls cs W H
              (λ i j, init_value P
                 (libc_rand (to_uint wall_clock) (Z.to_nat (i * H + j))))
              pixels Hok)
    as (p0 & Hrep0 & Hok0 & Hsh0 & Hf0).
  destruct (frames_displayed cs W H n HW HH s0 p0)
    as (s' & calls & p' & Hrun & Hsurf & Hrep & Hsh & Hf);
    [rewrite Hg0; apply tabulate_dims|by rewrite Hoth0|done
    |by rewrite Hg0|].
  eexists s', (_ ++ calls), p'. split_and!.
  - by erewrite run_bind.
  - by rewrite Hsurf, Hsurf0, app_assoc.
  - by rewrite replay_app, Hrep0.
  - done.
  - by eapply same_fourth_bytes_trans.
Qed.

(** X11: [main] returns 1 without seeding, generating or drawing when
    [SDL_Init] fails or no window is created.  Otherwise everything it does
    draws through the surface [SDL_GetWindowSurface] returned, which it
    does not test: with a null surface the run is undefined.  With a
    surface that fits the window, when the first quit event arrives in the
    pass after [k] passes without one, it returns 0 after [k + 1]
    generations: the pass that sees the quit event still computes and draws
    a generation, and the surface then shows that last generation.  The
    seeded array takes exactly [W * H] values from the generator. *)
Theorem main_stops_one_generation_after_quit cs W H P libc_rand wall_clock
    sdl before events after s :
  0 < W ≤ INT_MAX → 0 < H ≤ INT_MAX →
  dims W H (st_grid s) → dims W H (st_gridCopy s) →
  SDL_PollEvent sdl = before ++ events :: after →
  Forall (λ evs, SDL_QUIT ∉ evs) before → SDL_QUIT ∈ events →
  (SDL_Init sdl < 0 ∨ SDL_CreateWindow sdl = false →
   run (main cs W H P libc_rand wall_clock sdl) s = Some (Returned 1, s)) ∧
  (0 ≤ SDL_Init sdl → SDL_CreateWindow sdl = true →
   (SDL_GetWindowSurface sdl = None →
    run (main cs W H P libc_rand wall_clock sdl) s = None) ∧
   (∀ pixels,
      SDL_GetWindowSurface sdl = Some pixels → surface_ok cs W H pixels →
      ∃ s' calls pixels',
        run (main cs W H P libc_rand wall_clock sdl) s
          = Some (Returned 0, s') ∧
        st_grid s' =
          Nat.iter (S (length before)) (next_generation W H)
            (initial_generation W H P libc_rand (to_uint wall_clock)) ∧
        st_gridCopy s' = st_grid s' ∧
        st_seed s' = to_uint wall_clock ∧
        st_rand_calls s' = Z.to_nat (W * H) ∧
        st_surface s' = st_surface s ++ calls ∧
        replay cs W calls pixels = Some pixels' ∧
        shows cs W H pixels' (st_grid s'))).
Proof.
  intros HW HH Hg Hc Hscript Hbefore Hquit. split.
  - intros Hfail. unfold main.
    destruct (Z.ltb_spec (SDL_Init sdl) 0); [done|].
    destruct Hfail as [? | ->]; [lia|done].
  - intros Hinit Hwin.
    destruct (main_body_run W H P libc_rand wall_clock before events after s
                HW HH Hg Hc Hbefore Hquit)
      as (s' & calls & Hbody & Hframes & Hsurf & Hne & Hg' & Hc' & Hseed
          & Hcalls).
    assert (run (main cs W H P libc_rand wall_clock sdl) s =
            pixels ← SDL_GetWindowSurface sdl;
            _ ← replay cs W calls pixels; Some (Returned 0, s')) as Hmain.
    { unfold main. destruct (Z.ltb_spec (SDL_Init sdl) 0); [lia|].
      rewrite Hwin, Hscript. simpl negb. cbv iota.
      rewrite (through_surface_run cs W _ _ s (Returned 0) s' calls Hbody Hsurf).
      by destruct calls. }
    rewrite Hmain. split.
    + by intros ->.
    + intros pixels -> Hok.
      destruct (seeded_frames_displayed cs W H P libc_rand wall_clock
                  (S (length before)) s pixels HW HH Hg Hc Hok)
        as (s'' & calls' & p' & Hframes' & Hsurf' & Hrep & Hsh & _).
      rewrite Hframes in Hframes'. injection Hframes' as <-.
      assert (calls' = calls) as ->
        by (apply (app_inv_head (st_surface s)); congruence).
      exists s', calls, p'. simpl. rewrite Hrep. simpl.
      split_and!; done.
Qed.

(** ** Seeding: the percentage and the clock *)

Lemma init_value_mono P P' r :
  0 ≤ P → P ≤ P' → P' < 2 ^ 32 →
  init_value P r = ALIVE → init_value P' r = ALIVE.
Proof.
  unfold init_value, ALIVE. intros HP0 HP HP'.
  rewrite (to_uint_small P), (to_uint_small P') by lia.
  destruct (Z.ltb_spec (to_uint r mod 100) P); [|done].
  destruct (Z.ltb_spec (to_uint r mod 100) P'); [done|lia].
Qed.

(** X12: raising [percentageInit] only adds live cells: for two values
    [P] and [P'] of an [unsigned int] with [P] at most [P'], and the same
    generator and clock, every cell [InitGrid] makes alive under [P] it
    also makes alive under [P']. *)
Theorem InitGrid_monotone_in_percentage W H P P' libc_rand wall_clock g s t :
  0 < W ≤ INT_MAX → 0 < H ≤ INT_MAX →
  dims W H (deref g s) → dims W H (deref g t) →
  0 ≤ P → P ≤ P' → P' < 2 ^ 32 →
  ∃ s' t',
    run (InitGrid W H P libc_rand wall_clock g) s = Some (tt, s') ∧
    run (InitGrid W H P' libc_rand wall_clock g) t = Some (tt, t') ∧
    ∀ x y, index (deref g s') x y = Some ALIVE →
           index (deref g t') x y = Some ALIVE.
Proof.
  intros HW HH Hs Ht HP0 HP HP'.
  destruct (InitGrid_run W H P libc_rand HW HH wall_clock g s Hs)
    as (s' & Hrun & Hg & _).
  destruct (InitGrid_run W H P' libc_rand HW HH wall_clock g t Ht)
    as (t' & Hrunt & Hgt & _).
  exists s', t'. split_and!; [done..|].
  intros x y. rewrite Hg, Hgt. intros Hcell.
  destruct (index_bounds W H _ x y _ (tabulate_dims W H _) Hcell) as [Hx Hy].
  unfold initial_generation in *.
  rewrite index_tabulate in Hcell |- * by done.
  injection Hcell as Hcell. f_equal.
  by apply (init_value_mono P P').
Qed.

(** X13: [InitGrid] reseeds the generator before anything else, with the
    clock value taken as an [unsigned int]: from any two states, with any
    earlier use of the generator, and two clock values that agree modulo
    2^32, it seeds the same array, issues the same [DrawCell] calls, and
    leaves the generator in the same state, [W * H] values in. *)
Theorem InitGrid_depends_on_clock_only W H P libc_rand clock clock' g s t :
  0 < W ≤ INT_MAX → 0 < H ≤ INT_MAX →
  dims W H (deref g s) → dims W H (deref g t) →
  clock mod 2 ^ 32 = clock' mod 2 ^ 32 →
  ∃ s' t' calls,
    run (InitGrid W H P libc_rand clock g) s = Some (tt, s') ∧
    run (InitGrid W H P libc_rand clock' g) t = Some (tt, t') ∧
    deref g s' = deref g t' ∧
    st_surface s' = st_surface s ++ calls ∧
    st_surface t' = st_surface t ++ calls ∧
    st_seed s' = st_seed t' ∧
    st_rand_calls s' = Z.to_nat (W * H) ∧
    st_rand_calls t' = Z.to_nat (W * H).
Proof.
  intros HW HH Hs Ht Hclock.
  assert (to_uint clock' = to_uint clock) as Hc by done.
  destruct (InitGrid_run W H P libc_rand HW HH clock g s Hs)
    as (s' & Hrun & Hg & _ & Hseed & Hcalls).
  destruct (InitGrid_run W H P libc_rand HW HH clock' g t Ht)
    as (t' & Hrunt & Hgt & _ & Hseedt & Hcallst).
  destruct (InitGrid_calls W H P libc_rand HW HH clock g s Hs)
    as (s'' & Hrun' & _ & _ & Hsurf).
  destruct (InitGrid_calls W H P libc_rand HW HH clock' g t Ht)
    as (t'' & Hrunt' & _ & _ & Hsurft).
  rewrite Hrun in Hrun'. injection Hrun' as <-.
  rewrite Hrunt in Hrunt'. injection Hrunt' as <-.
  rewrite Hc in Hgt, Hsurft, Hseedt.
  eexists s', t', _. split_and!; [done|done|congruence|done|done|congruence|done..].
Qed.

(** ** A still life *)

Lemma pair_profile N c k :
  3 ≤ N → 0 ≤ c < N → 0 ≤ k < N →
  (pair_at N c (Spec.low N k) = false ∧ pair_at N c k = true ∧
   pair_at N c (Spec.high N k) = true) ∨
  (pair_at N c (Spec.low N k) = true ∧ pair_at N c k = true ∧
   pair_at N c (Spec.high N k) = false) ∨
  (pair_at N c (Spec.low N k) = true ∧ pair_at N c k = false ∧
   pair_at N c (Spec.high N k) = true) ∨
  (pair_at N c (Spec.low N k) = true ∧ pair_at N c k = false ∧
   pair_at N c (Spec.high N k) = false) ∨
  (pair_at N c (Spec.low N k) = false ∧ pair_at N c k = false ∧
   pair_at N c (Spec.high N k) = true) ∨
  (pair_at N c (Spec.low N k) = false ∧ pair_at N c k = false ∧
   pair_at N c (Spec.high N k) = false).
Proof.
  intros HN Hc Hk. unfold pair_at.
  rewrite (low_cases N k), (high_cases N k), (high_cases N c) by lia.
  destruct (Z.eqb_spec k 0), (Z.eqb_spec k (N - 1)),
    (Z.eqb_spec c 0), (Z.eqb_spec c (N - 1));
    try (exfalso; lia); split_eqb; simpl; auto 10.
Qed.

Lemma block_step W H cx cy :
  3 ≤ W ≤ INT_MAX → 3 ≤ H ≤ INT_MAX → 0 ≤ cx < W → 0 ≤ cy < H →
  next_generation W H (block W H cx cy) = block W H cx cy.
Proof.
  intros HW HH Hcx Hcy. unfold block.
  rewrite next_generation_tabulate by lia.
  apply tabulate_ext. intros x y Hx Hy.
  unfold Spec.adjacent. cbn [foldr fst snd].
  pose proof (pair_profile W cx x ltac:(lia) Hcx Hx) as PX.
  pose proof (pair_profile H cy y ltac:(lia) Hcy Hy) as PY.
  clear HW HH Hcx Hcy Hx Hy. use_profile; reflexivity.
Qed.

(** X14: a 2 by 2 block of live cells, placed anywhere on a grid of at
    least 3 by 3 cells (wrapping at the edges) with every other cell dead,
    is left as it is by a generation step, and so by any number of frames. *)
Theorem block_is_still W H cx cy n s :
  3 ≤ W ≤ INT_MAX → 3 ≤ H ≤ INT_MAX → 0 ≤ cx < W → 0 ≤ cy < H →
  st_grid s = block W H cx cy → dims W H (st_gridCopy s) →
  ∃ s', run (frames W H n) s = Some (tt, s') ∧
        st_grid s' = block W H cx cy.
Proof.
  intros HW HH Hcx Hcy Hs Hc.
  assert (0 < W ≤ INT_MAX ∧ 0 < H ≤ INT_MAX) as [HW' HH'] by lia.
  destruct (frames_iterate W H n HW' HH' s) as (s' & Hrun & Hg' & _);
    [rewrite Hs; apply tabulate_dims|done|].
  exists s'. split; [done|]. rewrite Hg', Hs. clear Hrun Hg'.
  induction n as [|n IH]; [done|]. simpl. rewrite IH.
  by apply block_step.
Qed.

(** * The further properties at concrete inputs *)

Lemma grey_surface_ok : surface_ok 2 5 5 grey_surface.
Proof. unfold surface_ok. split_and!; try lia. reflexivity. Qed.

Lemma LiveNeighbourCount_stays_in_bounds_witness :
  Forall (λ p, 0 ≤ p.1 < 5 ∧ 0 ≤ p.2 < 5) (neighbours 5 5 0 4) ∧
  ∃ n, LiveNeighbourCount 5 5 0 4 (blinker_h 5 5 2 2) = Some n ∧ 0 ≤ n ≤ 8.
Proof.
  apply (LiveNeighbourCount_stays_in_bounds 5 5 (blinker_h 5 5 2 2) 0 4).
  - apply small_extent. lia.
  - apply small_extent. lia.
  - apply tabulate_dims.
  - lia.
  - lia.
Defined.

Lemma LiveNeighbourCount_outside_is_undefined_witness :
  LiveNeighbourCount 5 5 5 0 (blinker_h 5 5 2 2) = None.
Proof.
  apply (LiveNeighbourCount_outside_is_undefined 5 5 (blinker_h 5 5 2 2) 5 0).
  - apply tabulate_dims.
  - lia.
Defined.

Lemma neighbours_distinct_iff_extents_at_least_3_witness :
  NoDup ((1, 0) :: neighbours 2 5 1 0) ↔ 3 ≤ 2 ∧ 3 ≤ 5.
Proof.
  apply (neighbours_distinct_iff_extents_at_least_3 2 5 1 0).
  - apply small_extent. lia.
  - apply small_extent. lia.
  - lia.
  - lia.
Defined.

Lemma generation_reads_cells_as_one_or_not_witness :
  ∃ s' t' calls,
    run (CalculateNextGeneration 5 5 grid gridCopy) mixed_state
      = Some (tt, s') ∧
    run (CalculateNextGeneration 5 5 grid gridCopy) normalised_mixed_state
      = Some (tt, t') ∧
    deref grid s' = deref grid t' ∧ deref gridCopy s' = deref gridCopy t' ∧
    st_surface s' = st_surface mixed_state ++ calls ∧
    st_surface t' = st_surface normalised_mixed_state ++ calls.
Proof.
  apply (generation_reads_cells_as_one_or_not 5 5 grid gridCopy
           mixed_state normalised_mixed_state).
  - apply small_extent. lia.
  - apply small_extent. lia.
  - discriminate.
  - apply tabulate_dims.
  - apply tabulate_dims.
  - apply tabulate_dims.
  - reflexivity.
Defined.

Lemma generation_commutes_with_shift_witness :
  ∃ s' t',
    run (CalculateNextGeneration 5 5 grid gridCopy) blinker_state
      = Some (tt, s') ∧
    run (CalculateNextGeneration 5 5 grid gridCopy) shifted_blinker_state
      = Some (tt, t') ∧
    deref grid t' = shift 5 5 4 2 (deref grid s') ∧
    (∀ x y, 0 ≤ x < 5 → 0 ≤ y < 5 →
       index (deref grid t') x y =
       index (deref grid s') ((x + 4) mod 5) ((y + 2) mod 5)).
Proof.
  apply (generation_commutes_with_shift 5 5 4 2 grid gridCopy
           blinker_state shifted_blinker_state).
  - apply small_extent. lia.
  - apply small_extent. lia.
  - discriminate.
  - apply tabulate_dims.
  - apply tabulate_dims.
  - apply tabulate_dims.
  - reflexivity.
Defined.

Lemma DrawCell_paints_one_square_witness :
  ∃ pixels',
    DrawCell_pixels 2 5 1 2 white grey_surface = Some pixels' ∧
    length pixels' = length grey_surface ∧
    ∀ px py k, 0 ≤ px < 2 * 5 → 0 ≤ py < 2 * 5 → 0 ≤ k < 4 →
      pixels' !! Z.to_nat (pixel_offset (2 * 5) px py k) =
      if decide (px / 2 = 1 ∧ py / 2 = 2 ∧ k < 3)
      then Some (to_uchar white)
      else grey_surface !! Z.to_nat (pixel_offset (2 * 5) px py k).
Proof.
  apply (DrawCell_paints_one_square 2 5 5 grey_surface 1 2 white).
  - apply grey_surface_ok.
  - lia.
  - lia.
Defined.

Lemma DrawCell_below_grid_is_undefined_witness :
  DrawCell_pixels 2 5 0 5 white grey_surface = None.
Proof.
  apply (DrawCell_below_grid_is_undefined 2 5 5 grey_surface 0 5 white).
  - apply grey_surface_ok.
  - lia.
  - lia.
  - lia.
Defined.

Lemma generation_is_displayed_witness :
  ∃ s' calls pixels',
    run (CalculateNextGeneration 5 5 grid gridCopy) blinker_state
      = Some (tt, s') ∧
    st_surface s' = st_surface blinker_state ++ calls ∧
    replay 2 5 calls grey_surface = Some pixels' ∧
    surface_ok 2 5 5 pixels' ∧
    shows 2 5 5 pixels' (deref grid s') ∧
    same_fourth_bytes 2 5 5 grey_surface pixels'.
Proof.
  apply (generation_is_displayed 2 5 5 grid gridCopy blinker_state
           grey_surface).
  - apply small_extent. lia.
  - apply small_extent. lia.
  - discriminate.
  - apply tabulate_dims.
  - apply tabulate_dims.
  - apply grey_surface_ok.
Defined.

Lemma window_shows_current_generation_witness :
  ∃ s' calls pixels',
    run (InitGrid 5 5 10 (λ _ k, Z.of_nat k * 37) 1700000000 grid ;;
         frames 5 5 2) dead_state = Some (tt, s') ∧
    st_surface s' = st_surface dead_state ++ calls ∧
    replay 2 5 calls grey_surface = Some pixels' ∧
    shows 2 5 5 pixels' (st_grid s') ∧
    same_fourth_bytes 2 5 5 grey_surface pixels'.
Proof.
  apply (window_shows_current_generation 2 5 5 10 (λ _ k, Z.of_nat k * 37)
           1700000000 2 dead_state grey_surface).
  - apply small_extent. lia.
  - apply small_extent. lia.
  - apply tabulate_dims.
  - apply tabulate_dims.
  - apply grey_surface_ok.
Defined.

Lemma frames_compute_iterates_witness :
  run (frames 5 5 (1 + 2)) blinker_state
    = run (frames 5 5 1 ;; frames 5 5 2) blinker_state ∧
  ∃ s',
    run (frames 5 5 2) blinker_state = Some (tt, s') ∧
    st_grid s' = Nat.iter 2 (next_generation 5 5) (st_grid blinker_state) ∧
    (0 < 2 → st_gridCopy s' = st_grid s')%nat ∧
    st_seed s' = st_seed blinker_state ∧
    st_rand_calls s' = st_rand_calls blinker_state.
Proof.
  apply (frames_compute_iterates 5 5 1 2 blinker_state).
  - apply small_extent. lia.
  - apply small_extent. lia.
  - apply tabulate_dims.
  - apply tabulate_dims.
Defined.

Lemma main_stops_one_generation_after_quit_witness :
  (run (main 2 5 5 10 (λ _ k, Z.of_nat k * 37) 1700000000
          quit_without_surface) dead_state = None) ∧
  ∃ s' calls pixels',
    run (main 2 5 5 10 (λ _ k, Z.of_nat k * 37) 1700000000
           quit_in_second_pass) dead_state = Some (Returned 0, s') ∧
    st_grid s' =
      Nat.iter 2 (next_generation 5 5)
        (initial_generation 5 5 10 (λ _ k, Z.of_nat k * 37)
           (to_uint 1700000000)) ∧
    st_gridCopy s' = st_grid s' ∧
    st_seed s' = to_uint 1700000000 ∧
    st_rand_calls s' = Z.to_nat (5 * 5) ∧
    st_surface s' = st_surface dead_state ++ calls ∧
    replay 2 5 calls grey_surface = Some pixels' ∧
    shows 2 5 5 pixels' (st_grid s').
Proof.
  split.
  - apply (main_stops_one_generation_after_quit 2 5 5 10
             (λ _ k, Z.of_nat k * 37) 1700000000 quit_without_surface
             [[SDL_OTHER]] [SDL_OTHER; SDL_QUIT; SDL_OTHER] [[SDL_OTHER]]
             dead_state).
    + apply small_extent. lia.
    + apply small_extent. lia.
    + apply tabulate_dims.
    + apply tabulate_dims.
    + reflexivity.
    + apply Forall_cons_2; [|apply Forall_nil_2].
      intros [[=]|[]%elem_of_nil]%elem_of_cons.
    + apply elem_of_cons. right. apply elem_of_cons. by left.
    + simpl. lia.
    + reflexivity.
    + reflexivity.
  - apply (main_stops_one_generation_after_quit 2 5 5 10
             (λ _ k, Z.of_nat k * 37) 1700000000 quit_in_second_pass
             [[SDL_OTHER]] [SDL_OTHER; SDL_QUIT; SDL_OTHER] [[SDL_OTHER]]
             dead_state).
    + apply small_extent. lia.
    + apply small_extent. lia.
    + apply tabulate_dims.
    + apply tabulate_dims.
    + reflexivity.
    + apply Forall_cons_2; [|apply Forall_nil_2].
      intros [[=]|[]%elem_of_nil]%elem_of_cons.
    + apply elem_of_cons. right. apply elem_of_cons. by left.
    + simpl. lia.
    + reflexivity.
    + reflexivity.
    + apply grey_surface_ok.
Defined.

Lemma InitGrid_monotone_in_percentage_witness :
  ∃ s' t',
    run (InitGrid 5 5 10 (λ _ k, Z.of_nat k * 37) 1700000000 grid) dead_state
      = Some (tt, s') ∧
    run (InitGrid 5 5 50 (λ _ k, Z.of_nat k * 37) 1700000000 grid)
      blinker_state = Some (tt, t') ∧
    ∀ x y, index (deref grid s') x y = Some ALIVE →
           index (deref grid t') x y = Some ALIVE.
Proof.
  apply (InitGrid_monotone_in_percentage 5 5 10 50 (λ _ k, Z.of_nat k * 37)
           1700000000 grid dead_state blinker_state).
  - apply small_extent. lia.
  - apply small_extent. lia.
  - apply tabulate_dims.
  - apply tabulate_dims.
  - lia.
  - lia.
  - lia.
Defined.

Lemma InitGrid_depends_on_clock_only_witness :
  ∃ s' t' calls,
    run (InitGrid 5 5 10 (λ seed k, seed + Z.of_nat k * 37) 5 grid)
      dead_state = Some (tt, s') ∧
    run (InitGrid 5 5 10 (λ seed k, seed + Z.of_nat k * 37) (5 + 2 ^ 32) grid)
      blinker_state' = Some (tt, t') ∧
    deref grid s' = deref grid t' ∧
    st_surface s' = st_surface dead_state ++ calls ∧
    st_surface t' = st_surface blinker_state' ++ calls ∧
    st_seed s' = st_seed t' ∧
    st_rand_calls s' = Z.to_nat (5 * 5) ∧
    st_rand_calls t' = Z.to_nat (5 * 5).
Proof.
  apply (InitGrid_depends_on_clock_only 5 5 10
           (λ seed k, seed + Z.of_nat k * 37) 5 (5 + 2 ^ 32) grid
           dead_state blinker_state').
  - apply small_extent. lia.
  - apply small_extent. lia.
  - apply tabulate_dims.
  - apply tabulate_dims.
  - reflexivity.
Defined.

Lemma block_is_still_witness :
  ∃ s', run (frames 5 5 3) block_state = Some (tt, s') ∧
        st_grid s' = block 5 5 4 4.
Proof.
  apply (block_is_still 5 5 4 4 3 block_state).
  - unfold INT_MAX. lia.
  - unfold INT_MAX. lia.
  - lia.
  - lia.
  - reflexivity.
  - apply tabulate_dims.
Defined.

(** The window of the repository, 800 by 800 pixels of 4 bytes, is a
    surface the results above apply to. *)
Lemma repository_surface_ok pixels :
  Z.of_nat (length pixels) = 2560000 →
  surface_ok Repository.cellSize Repository.gridWidth Repository.gridHeight
    pixels.
Proof.
  intros Hlen. unfold surface_ok. rewrite Hlen.
  unfold Repository.cellSize, Repository.gridWidth, Repository.gridHeight.
  split_and!; lia.
Qed.
